(** * Resource estimation for vibronic dynamics: the notebook's arithmetic

    A shallow embedding of the cells of [Resource_Estimation_Tutorial.ipynb]
    that carry logic of their own: the QFT resource override, the loading of
    the coupling tensors, the per-fragment cost aggregation, the second-order
    Trotter step schedule, the step-count formula and the guarded step-count
    and total-cost cells.

    Conventions.
    - Python integers are [Z]; nothing wraps around.
    - Python floats are binary64 numbers.  The definitions of the cells take
      each float operation as exact in the real numbers ([R]); the part on
      binary64 arithmetic adds the rounding, for the logarithm of the QFT
      override and for [num_steps], and the statements say where the two
      agree and how far apart they can be.  Overflow, underflow and NaN are
      kept out by hypotheses on the range of the arguments ([in_range],
      [moderate]).
    - A raised exception is a value of [exn]; a cell or function that may
      raise returns a [result]. *)

From Stdlib Require Import ZArith List Bool Lia Permutation.
From Stdlib Require Import Reals Lra.
From stdpp Require Import base decidable option list gmap strings fin_maps.
From stdpp Require Import sorting pretty.

#[local] Open Scope Z_scope.

(** ** Exceptions and results *)

Inductive exn : Type :=
| TypeError
| ZeroDivisionError
| ValueError
| KeyError
| IndexError
| NameError.

Inductive result (A : Type) : Type :=
| Ok (a : A)
| Raise (e : exn).

Arguments Ok {A} a.
Arguments Raise {A} e.

Definition bind {A B : Type} (r : result A) (k : A -> result B) : result B :=
  match r with
  | Ok a => k a
  | Raise e => Raise e
  end.

Notation "'let!' x ':=' r 'in' k" := (bind r (fun x => k))
  (at level 10, x name, r at level 100, k at level 200).

(** A position of a Python list or tuple: out of range raises. *)
Definition index {A : Type} (l : list A) (i : nat) : result A :=
  match l !! i with
  | Some a => Ok a
  | None => Raise IndexError
  end.

(** [math.ceil(math.log2(n))] on a Python integer.  [math.log2] raises a
    [ValueError] on a non-positive argument; its result is taken as exact
    here.  [Binary64.ceil_log2] below rounds it as the interpreter does; the
    two agree up to [2^48]. *)
Definition ceil_log2 (n : Z) : result Z :=
  if n <=? 0 then Raise ValueError else Ok (Z.log2_up n).

(** ** Resource estimates *)

Module Res.

(** Modelled from the spec: the resource-estimate record of the external
    estimation library, which the notebook only calls (spec section 3: a
    record of qubit count and per-gate-type counts, with addition and scalar
    multiplication for sequential and repeated operations).  The qubit
    breakdown (clean, dirty, algorithmic) and the gate dictionary are the
    ones the notebook prints.  Series composition keeps the larger clean and
    algorithmic registers, adds dirty qubits, and adds gate counts key by
    key; scaling multiplies dirty qubits and every gate count. *)
Record QubitManager : Type := mkQM {
  clean_qubits : Z;
  dirty_qubits : Z;
  algo_qubits : Z;
  tight_budget : bool
}.

(** Modelled from the spec: an estimate, the qubit breakdown together with
    the count of each gate type by name. *)
Record Resources : Type := mkRes {
  qubit_manager : QubitManager;
  gate_types : gmap string Z
}.

#[global] Instance QubitManager_eq_dec : EqDecision QubitManager.
Proof. solve_decision. Defined.

#[global] Instance Resources_eq_dec : EqDecision Resources.
Proof. solve_decision. Defined.

Definition total_qubits (q : QubitManager) : Z :=
  clean_qubits q + dirty_qubits q + algo_qubits q.

(** [res.clean_gate_counts.get(name, 0)] *)
Definition gate_count (name : string) (r : Resources) : Z :=
  default 0 (gate_types r !! name).

Definition toffoli (r : Resources) : Z := gate_count "Toffoli" r.

Definition combine_dict (d1 d2 : gmap string Z) : gmap string Z :=
  union_with (fun x y => Some (x + y)) d1 d2.

Definition scale_dict (d : gmap string Z) (scalar : Z) : gmap string Z :=
  (fun x => scalar * x) <$> d.

(** Modelled from the spec: [first + other], the estimate of one circuit
    followed by the other. *)
Definition add_in_series (first other : Resources) : Resources :=
  let qm1 := qubit_manager first in
  let qm2 := qubit_manager other in
  mkRes
    (mkQM (Z.max (clean_qubits qm1) (clean_qubits qm2))
          (dirty_qubits qm1 + dirty_qubits qm2)
          (Z.max (algo_qubits qm1) (algo_qubits qm2))
          (tight_budget qm1 || tight_budget qm2))
    (combine_dict (gate_types first) (gate_types other)).

(** Modelled from the spec: [first * scalar] and [scalar * first], the
    estimate of a circuit repeated [scalar] times. *)
Definition mul_in_series (first : Resources) (scalar : Z) : Resources :=
  let qm := qubit_manager first in
  mkRes
    (mkQM (clean_qubits qm) (scalar * dirty_qubits qm) (algo_qubits qm)
          (tight_budget qm))
    (scale_dict (gate_types first) scalar).

(** The estimate of the empty circuit. *)
Definition zero : Resources := mkRes (mkQM 0 0 0 false) ∅.

(** Qubit counts of an estimate are never negative. *)
Definition valid (r : Resources) : Prop :=
  0 <= clean_qubits (qubit_manager r) /\
  0 <= dirty_qubits (qubit_manager r) /\
  0 <= algo_qubits (qubit_manager r).

End Res.

Import Res.

Declare Scope res_scope.
Delimit Scope res_scope with res.
Bind Scope res_scope with Resources.
Infix "⊕" := add_in_series (at level 50, left associativity) : res_scope.
Infix "⊙" := mul_in_series (at level 40, left associativity) : res_scope.

(** ** Circuit templates *)

(** The operations of the estimation library that the templates queue.
    Wires are left out: they name registers and do not enter a gate count. *)
Inductive Op : Type :=
| ResourceQROM (num_bitstrings size_bitstring : Z) (clean : bool)
| ResourceSemiAdder (max_register_size : Z)
| ResourceControlled (base : Op) (num_ctrl_wires num_ctrl_values : Z)
| ResourceAdjoint (base : Op)
| ResourceOutOfPlaceSquare (register_size : Z)
| ResourceOutMultiplier (a_num_qubits b_num_qubits : Z)
| ResourceQFT (num_wires : Z)
| ResourceIdentity.

(** [range(n)] *)
Definition range (n : Z) : list Z := map Z.of_nat (seq 0 (Z.to_nat n)).

(** The controlled additions onto the phase-gradient register, one per
    control bit: [for i in range(n)] with register size [b - i]. *)
Definition phase_adders (b n : Z) : list Op :=
  map (fun i => ResourceControlled (ResourceSemiAdder (b - i)) 1 0) (range n).

Definition Q_cir (b N k : Z) : list Op :=
  [ResourceQROM N b false]
  ++ phase_adders b k
  ++ [ResourceAdjoint (ResourceQROM N b false); ResourceIdentity].

Definition Qsquared_cir (b N k : Z) : list Op :=
  [ResourceQROM N b false; ResourceOutOfPlaceSquare k]
  ++ phase_adders b (2 * k)
  ++ [ResourceAdjoint (ResourceOutOfPlaceSquare k);
      ResourceAdjoint (ResourceQROM N b false);
      ResourceIdentity].

Definition QrQs_cir (b N k : Z) : list Op :=
  [ResourceQROM N b false; ResourceOutMultiplier k k]
  ++ phase_adders b (2 * k)
  ++ [ResourceAdjoint (ResourceOutMultiplier k k);
      ResourceAdjoint (ResourceQROM N b false);
      ResourceIdentity].

Definition kinetic_cir (b M k : Z) : list Op :=
  map (fun _ => ResourceQFT k) (range M)
  ++ flat_map (fun _ =>
       [ResourceOutOfPlaceSquare k]
       ++ phase_adders b (2 * k)
       ++ [ResourceAdjoint (ResourceOutOfPlaceSquare k)]) (range M)
  ++ map (fun _ => ResourceAdjoint (ResourceQFT k)) (range M)
  ++ [ResourceIdentity].

(** The Toffoli count of a template under a per-operation cost [toff]. *)
Definition circuit_toffoli (toff : Op -> Z) (ops : list Op) : Z :=
  fold_right (fun op acc => toff op + acc) 0 ops.

(** ** The QFT resource override *)

Inductive GateItem : Type :=
| AllocWires (n : Z)
| GateCount (gate : string) (count : Z)
| FreeWires (n : Z).

(** [AQFT_resource_decomp(num_wires, **kwargs)]; the keyword arguments are
    whatever the caller passes, of any type [K]. *)
Definition AQFT_resource_decomp {K : Type} (num_wires : Z) (kwargs : K)
  : result (list GateItem) :=
  let! ceil_log_n := ceil_log2 num_wires in
  let aux_qubit_count := num_wires + 3 * ceil_log_n - 4 in
  let toff := "Toffoli" in
  let toff_count := 2 * num_wires * (ceil_log_n - 1) in
  Ok [ AllocWires aux_qubit_count;
       GateCount toff toff_count;
       FreeWires aux_qubit_count ].

(** What a gate list reports: the count of a named gate, the auxiliary
    wires it allocates and the ones it frees. *)
Definition gates_named (name : string) (gl : list GateItem) : Z :=
  fold_right (fun g acc =>
    match g with
    | GateCount gate count => if String.eqb gate name then count + acc else acc
    | _ => acc
    end) 0 gl.

Definition wires_allocated (gl : list GateItem) : Z :=
  fold_right (fun g acc =>
    match g with AllocWires n => n + acc | _ => acc end) 0 gl.

Definition wires_freed (gl : list GateItem) : Z :=
  fold_right (fun g acc =>
    match g with FreeWires n => n + acc | _ => acc end) 0 gl.

(** The number of auxiliary wires held after the gate list has been walked
    from left to right, starting with [held] of them. *)
Definition walk_wires (held : Z) (gl : list GateItem) : Z :=
  fold_left (fun h g =>
    match g with
    | AllocWires n => h + n
    | FreeWires n => h - n
    | GateCount _ _ => h
    end) gl held.

(** A cost function with the rules of the estimation library for the
    operations of the templates; [qrom] is the cost of one QROM load or
    unload, which depends on the number of electronic states. *)
Definition reference_toff (qrom : Z) (op : Op) : Z :=
  let qft n :=
    match AQFT_resource_decomp n tt with
    | Ok gl => gates_named "Toffoli" gl
    | Raise _ => 0
    end in
  match op with
  | ResourceControlled (ResourceSemiAdder n) _ _ => 2 * (n - 1)
  | ResourceOutOfPlaceSquare k
  | ResourceAdjoint (ResourceOutOfPlaceSquare k) => (k - 1) ^ 2
  | ResourceOutMultiplier a b
  | ResourceAdjoint (ResourceOutMultiplier a b) => 2 * a * b - Z.max a b
  | ResourceQFT n
  | ResourceAdjoint (ResourceQFT n) => qft n
  | ResourceQROM _ _ _
  | ResourceAdjoint (ResourceQROM _ _ _) => qrom
  | _ => 0
  end.

(** ** Loading the Hamiltonian *)

Record ndarray : Type := mkArr {
  shape : list nat;
  data : list R
}.

(** [np.zeros(shp)] *)
Definition zeros (shp : list nat) : ndarray :=
  mkArr shp (repeat 0%R (fold_right Nat.mul 1%nat shp)).

(** [couplings[key]] on a dictionary keyed by the coupling order. *)
Definition getitem (couplings : gmap Z ndarray) (key : Z) : result ndarray :=
  match couplings !! key with
  | Some a => Ok a
  | None => Raise KeyError
  end.

Record Hamiltonian : Type := mkHam {
  QVC : bool;
  omegas : list R;
  lambdas : ndarray;
  alphas : ndarray;
  N : nat;
  M : nat;
  log_N : Z;
  betas : ndarray
}.

(** The loading cell, from the unpickled pair [(omegas, couplings)] on. *)
Definition load_cell (omegas0 : list R) (couplings : gmap Z ndarray)
  : result Hamiltonian :=
  let QVC := bool_decide (is_Some (couplings !! 2)) in
  let! lambdas := getitem couplings 0 in
  let! alphas := getitem couplings 1 in
  let! N := index (shape alphas) 0 in
  let! M := index (shape alphas) 2 in
  let! log_N := ceil_log2 (Z.of_nat N) in
  let! betas := (if QVC then getitem couplings 2 else Ok (zeros [N; N; M; M])) in
  Ok (mkHam QVC omegas0 lambdas alphas N M log_N betas).

(** A model without quadratic couplings: two electronic states, three
    modes, entries for the orders 0 and 1 only. *)
Definition sample_couplings : gmap Z ndarray :=
  {[ 0 := zeros [2; 2]%nat; 1 := zeros [2; 2; 3]%nat ]}.

(** ** Cost of a fragment *)

(** [num_Qr * res_Q + num_Qr2 * res_Qsquared + num_QrQs * res_QrQs] *)
Definition res_frag (res_Q res_Qsquared res_QrQs : Resources)
  (counts : Z * Z * Z) : Resources :=
  let '(num_Qr, num_Qr2, num_QrQs) := counts in
  (res_Q ⊙ num_Qr ⊕ res_Qsquared ⊙ num_Qr2 ⊕ res_QrQs ⊙ num_QrQs)%res.

(** The loop that fills [res_list_OG] and [res_list_mode]: the kinetic
    estimate first, then one estimate per fragment but the last.
    [count_nonzero_Q_terms] is the helper of [utils], taken as a parameter. *)
Definition res_list {Fragment : Type}
  (count_nonzero_Q_terms : Fragment -> Z * Z * Z)
  (res_kinetic res_Q res_Qsquared res_QrQs : Resources)
  (fragments : list Fragment) : list Resources :=
  res_kinetic ::
  map (fun frag => res_frag res_Q res_Qsquared res_QrQs (count_nonzero_Q_terms frag))
      (take (length fragments - 1) fragments).

(** ** The second-order Trotter step *)

(** [sorted(l, key=key, reverse=True)]: decreasing keys, equal keys in
    their original order. *)
Fixpoint insert_desc (key : Resources -> Z) (x : Resources)
  (l : list Resources) : list Resources :=
  match l with
  | [] => [x]
  | y :: ys => if key y <=? key x then x :: y :: ys
               else y :: insert_desc key x ys
  end.

Definition sorted_reverse (key : Resources -> Z) (l : list Resources)
  : list Resources :=
  fold_right (insert_desc key) [] l.

(** Keys never increase along the list. *)
Inductive descending (key : Resources -> Z) : list Resources -> Prop :=
| desc_nil : descending key []
| desc_cons x l :
    Forall (fun y => key y <= key x) l -> descending key l ->
    descending key (x :: l).

(** The body of the loop [for res in res_list]. *)
Definition step_add (res_expensive_frags : list Resources)
  (step res : Resources) : Resources :=
  if bool_decide (res ∈ res_expensive_frags) then step
  else (step ⊕ res ⊙ 2)%res.

(** [step_OG_res] and [step_mode_res] (before the electronic unitaries are
    added), as a function of the list of fragment estimates. *)
Definition step_res (res_list : list Resources) : result Resources :=
  let res_expensive_frags := take 2 (sorted_reverse toffoli res_list) in
  let! e0 := index res_expensive_frags 0 in
  let! e1 := index res_expensive_frags 1 in
  Ok (fold_left (step_add res_expensive_frags) res_list (e0 ⊕ e1)%res).

(** A weighted aggregation [init + w1 * r1 + w2 * r2 + ...], evaluated from
    the left as the loops of the notebook do. *)
Definition weighted_sum (init : Resources) (wl : list (Z * Resources))
  : Resources :=
  fold_left (fun acc '(w, r) => (acc ⊕ r ⊙ w)%res) wl init.

(** The same aggregation evaluated from the right. *)
Definition weighted_sum_right (init : Resources) (wl : list (Z * Resources))
  : Resources :=
  fold_right (fun '(w, r) acc => (r ⊙ w ⊕ acc)%res) init wl.

(** [n] copies of an estimate added up, for [n >= 1]. *)
Definition repeated (r : Resources) (n : nat) : Resources :=
  Nat.iter (n - 1) (fun acc => (acc ⊕ r)%res) r.

(** Sample estimates with the totals the notebook prints: the kinetic
    fragment (146 qubits, 5358 Toffoli gates) and a fragment made of one
    linear term (146 Toffoli gates). *)
Definition estimate (clean algo toff : Z) : Resources :=
  mkRes (mkQM clean 0 algo false) {[ "Toffoli" := toff ]}.

Definition sample_kinetic : Resources := estimate 19 127 5358.
Definition sample_linear : Resources := estimate 19 127 146.

(** The Toffoli gates of a list of estimates, each counted once. *)
Definition sum_toffoli (l : list Resources) : Z :=
  fold_right (fun r acc => toffoli r + acc) 0 l.

(** ** The number of Trotter steps *)

Inductive PyVal : Type :=
| PyNone
| PyFloat (x : R).

(** [x ** y] for a float exponent [y] that is positive and not an integer:
    a negative base gives a complex number (here [None]), a zero base
    gives zero. *)
Definition float_pow (x y : R) : option R :=
  if Rlt_dec x 0 then None
  else if Req_dec_T x 0 then Some 0%R
  else Some (Rpower x y).

(** [float_pow] on a non-negative base, as a total function. *)
Definition pow_nonneg (x y : R) : R :=
  if Req_dec_T x 0 then 0%R else Rpower x y.

(** [math.ceil] *)
Definition ceil (x : R) : Z := 1 - up (- x).

(** [num_steps] on floats, each operation taken as exact.  The division
    raises on a zero [req_error]; [math.ceil] rejects a complex argument.
    [Binary64.num_steps] below is the rounded one. *)
Definition num_steps (norm req_error total_time : R) : result Z :=
  let p := float_pow total_time 1.5 in
  if Req_dec_T req_error 0 then Raise ZeroDivisionError
  else
    match p, float_pow (norm / req_error) 0.5 with
    | Some a, Some b => Ok (ceil (a * b))
    | _, _ => Raise TypeError
    end.

(** The formula of the text, [n = t^1.5 * sqrt(lambda / epsilon)]. *)
Definition trotter_formula (norm req_error total_time : R) : R :=
  (Rpower total_time 1.5 * sqrt (norm / req_error))%R.

(** [num_steps] on what [get_norm_value] may return: [None / req_error]
    is a [TypeError]. *)
Definition num_steps_py (norm : PyVal) (req_error total_time : R) : result Z :=
  match norm with
  | PyNone => Raise TypeError
  | PyFloat x => num_steps x req_error total_time
  end.

Definition is_not_None (v : PyVal) : bool :=
  match v with
  | PyNone => false
  | PyFloat _ => true
  end.

Definition total_time : R := 152.
Definition req_error : R := 0.01.

(** The globals the last cells bind; [None] is a name not bound yet. *)
Record Globals : Type := mkGlobals {
  nsteps_OG : option Z;
  nsteps_mode : option Z;
  res_total_OG : option Resources;
  res_total_mode : option Resources
}.

(** The step-count cell. *)
Definition steps_cell (norm_OG norm_mode : PyVal) (g : Globals)
  : result Globals :=
  let! g1 :=
    (if is_not_None norm_OG then
       let! n := num_steps_py norm_OG req_error total_time in
       Ok (mkGlobals (Some n) (nsteps_mode g) (res_total_OG g) (res_total_mode g))
     else Ok g) in
  if is_not_None norm_OG then
    let! n := num_steps_py norm_mode req_error total_time in
    Ok (mkGlobals (nsteps_OG g1) (Some n) (res_total_OG g1) (res_total_mode g1))
  else Ok g1.

(** Reading a global: an unbound name raises. *)
Definition read {A : Type} (v : option A) : result A :=
  match v with
  | Some a => Ok a
  | None => Raise NameError
  end.

(** The two total-cost cells. *)
Definition total_OG_cell (norm_OG : PyVal) (res_initial step_OG_res : Resources)
  (g : Globals) : result Globals :=
  if is_not_None norm_OG then
    let! n := read (nsteps_OG g) in
    Ok (mkGlobals (nsteps_OG g) (nsteps_mode g)
          (Some (res_initial ⊕ step_OG_res ⊙ n)%res) (res_total_mode g))
  else Ok g.

Definition total_mode_cell (norm_OG : PyVal) (res_initial step_mode_res : Resources)
  (g : Globals) : result Globals :=
  if is_not_None norm_OG then
    let! n := read (nsteps_mode g) in
    Ok (mkGlobals (nsteps_OG g) (nsteps_mode g) (res_total_OG g)
          (Some (res_initial ⊕ step_mode_res ⊙ n)%res))
  else Ok g.

Definition no_globals : Globals := mkGlobals None None None None.

(** The three cells in notebook order, run in one go: the run stops at the
    first cell that raises. *)
Definition run_cells (norm_OG norm_mode : PyVal)
  (res_initial step_OG_res step_mode_res : Resources) : result Globals :=
  let! g1 := steps_cell norm_OG norm_mode no_globals in
  let! g2 := total_OG_cell norm_OG res_initial step_OG_res g1 in
  total_mode_cell norm_OG res_initial step_mode_res g2.

(** A cell run on its own: what a statement bound before another one
    raised stays bound, and the exception ends the cell only. *)
Definition keep (g : Globals) (r : result Globals) : Globals * option exn :=
  match r with
  | Ok g' => (g', None)
  | Raise e => (g, Some e)
  end.

Definition steps_cell_each (norm_OG norm_mode : PyVal) (g : Globals)
  : Globals * option exn :=
  let '(g1, raised) :=
    keep g
      (if is_not_None norm_OG then
         let! n := num_steps_py norm_OG req_error total_time in
         Ok (mkGlobals (Some n) (nsteps_mode g) (res_total_OG g)
               (res_total_mode g))
       else Ok g) in
  match raised with
  | Some e => (g1, Some e)
  | None =>
    keep g1
      (if is_not_None norm_OG then
         let! n := num_steps_py norm_mode req_error total_time in
         Ok (mkGlobals (nsteps_OG g1) (Some n) (res_total_OG g1)
               (res_total_mode g1))
       else Ok g1)
  end.

(** The three cells run one after the other by hand, each one whatever the
    one before did: the globals at the end and what each cell raised. *)
Definition run_each (norm_OG norm_mode : PyVal)
  (res_initial step_OG_res step_mode_res : Resources)
  : Globals * list (option exn) :=
  let '(g1, e1) := steps_cell_each norm_OG norm_mode no_globals in
  let '(g2, e2) := keep g1 (total_OG_cell norm_OG res_initial step_OG_res g1) in
  let '(g3, e3) := keep g2 (total_mode_cell norm_OG res_initial step_mode_res g2) in
  (g3, [e1; e2; e3]).

(** ** Wires *)

(** The label [f"{prefix}{i}"]. *)
Definition wire (prefix : string) (i : Z) : string := prefix +:+ pretty i.

(** [[f"{prefix}{i}" for i in range(n)]] *)
Definition wires (prefix : string) (n : Z) : list string :=
  map (wire prefix) (range n).

(** A slice bound brought into [0 .. len]: a negative bound counts from the
    end. *)
Definition clip (len i : Z) : Z :=
  if i <? 0 then Z.max 0 (len + i) else Z.min i len.

(** [l[start:stop]]; never raises. *)
Definition slice {A : Type} (l : list A) (start stop : Z) : list A :=
  let len := Z.of_nat (length l) in
  let a := clip len start in
  let b := clip len stop in
  take (Z.to_nat (b - a)) (drop (Z.to_nat a) l).

(** [l[:stop]] and [l[start:]] *)
Definition slice_to {A : Type} (l : list A) (stop : Z) : list A :=
  slice l 0 stop.

Definition slice_from {A : Type} (l : list A) (start : Z) : list A :=
  slice l start (Z.of_nat (length l)).

(** [l[i]]: a negative position counts from the end, a position outside
    the list raises. *)
Definition getitem_list {A : Type} (l : list A) (i : Z) : result A :=
  let j := if i <? 0 then Z.of_nat (length l) + i else i in
  if j <? 0 then Raise IndexError else index l (Z.to_nat j).

(** A loop body that may raise, run over a list. *)
Fixpoint mapM {A B : Type} (f : A -> result B) (l : list A)
  : result (list B) :=
  match l with
  | [] => Ok []
  | x :: xs =>
      let! y := f x in
      let! ys := mapM f xs in
      Ok (y :: ys)
  end.

(** The wire-naming cell. *)
Record Wires : Type := mkWires {
  phase_grad_wires : list string;
  electronic_wires : list string;
  coeff_wires : list string;
  total_mode_wires : list string;
  mode_wires : list string;
  scratch_wires : list string
}.

Definition wires_cell (b log_N k M : Z) : Wires :=
  let total_mode_wires := wires "m_" (k * M) in
  mkWires (wires "pg_" b) (wires "e_" log_N) (wires "c_" b)
          total_mode_wires (slice_to total_mode_wires k)
          (wires "s_" (2 * k)).

(** [mode2_wires = total_mode_wires[k:2*k]] *)
Definition mode2_wires (w : Wires) (k : Z) : list string :=
  slice (total_mode_wires w) k (2 * k).

(** ** Circuit templates with their wires *)

Module Wired.

(** A queued operation with the wires the template passes for it.  The
    constructors of the library check the wires they are given; that check
    is not part of the templates, and [distinct_wires] below states it. *)
Definition WOp : Type := Op * list string.

(** One controlled addition onto the phase-gradient register:
    [coeff_wires[:b-i] + phase_grad_wires[:b-i] + ctrl_wire]. *)
Definition phase_adder (b : Z) (coeff_wires phase_grad_wires : list string)
  (i : Z) (ctrl_wire : list string) : WOp :=
  let target_wires :=
    slice_to coeff_wires (b - i) ++ slice_to phase_grad_wires (b - i) in
  (ResourceControlled (ResourceSemiAdder (b - i)) 1 0,
   target_wires ++ ctrl_wire).

(** The additions controlled by the scratch wires [s_0 .. s_(2k-1)]. *)
Definition scratch_adders (b k : Z) (coeff_wires phase_grad_wires : list string)
  : list WOp :=
  map (fun i => phase_adder b coeff_wires phase_grad_wires i [wire "s_" i])
      (range (2 * k)).

Definition Q_cir (b N k : Z)
  (phase_grad_wires electronic_wires coeff_wires total_mode_wires
   mode_wires scratch_wires : list string) : result (list WOp) :=
  let! adders :=
    mapM (fun i =>
            let! w := getitem_list mode_wires i in
            Ok (phase_adder b coeff_wires phase_grad_wires i [w]))
         (range k) in
  Ok ([(ResourceQROM N b false, electronic_wires ++ coeff_wires)]
      ++ adders
      ++ [(ResourceAdjoint (ResourceQROM N b false),
           electronic_wires ++ coeff_wires);
          (ResourceIdentity, scratch_wires ++ slice_from total_mode_wires k)]).

Definition Qsquared_cir (b N k : Z)
  (phase_grad_wires electronic_wires coeff_wires total_mode_wires
   mode_wires scratch_wires : list string) : list WOp :=
  [(ResourceQROM N b false, electronic_wires ++ coeff_wires);
   (ResourceOutOfPlaceSquare k, scratch_wires ++ mode_wires)]
  ++ scratch_adders b k coeff_wires phase_grad_wires
  ++ [(ResourceAdjoint (ResourceOutOfPlaceSquare k),
       scratch_wires ++ mode_wires);
      (ResourceAdjoint (ResourceQROM N b false),
       electronic_wires ++ coeff_wires);
      (ResourceIdentity, slice_from total_mode_wires k)].

Definition QrQs_cir (b N k : Z)
  (phase_grad_wires electronic_wires coeff_wires total_mode_wires
   mode_wires mode2_wires scratch_wires : list string) : list WOp :=
  [(ResourceQROM N b false, electronic_wires ++ coeff_wires);
   (ResourceOutMultiplier k k, scratch_wires ++ mode_wires ++ mode2_wires)]
  ++ scratch_adders b k coeff_wires phase_grad_wires
  ++ [(ResourceAdjoint (ResourceOutMultiplier k k),
       scratch_wires ++ mode_wires ++ mode2_wires);
      (ResourceAdjoint (ResourceQROM N b false),
       electronic_wires ++ coeff_wires);
      (ResourceIdentity, slice_from total_mode_wires (2 * k))].

(** The register of mode [i]: [total_mode_wires[i*k : k*(i+1)]]. *)
Definition mode_register (total_mode_wires : list string) (k i : Z)
  : list string :=
  slice total_mode_wires (i * k) (k * (i + 1)).

(** The argument [mode_wires] is rebound in the loop before it is read. *)
Definition kinetic_cir (b M k : Z)
  (phase_grad_wires electronic_wires coeff_wires total_mode_wires
   mode_wires scratch_wires : list string) : list WOp :=
  map (fun i => (ResourceQFT k, mode_register total_mode_wires k i)) (range M)
  ++ flat_map (fun i =>
       let mode_wires := mode_register total_mode_wires k i in
       [(ResourceOutOfPlaceSquare k, mode_wires ++ scratch_wires)]
       ++ scratch_adders b k coeff_wires phase_grad_wires
       ++ [(ResourceAdjoint (ResourceOutOfPlaceSquare k),
            mode_wires ++ scratch_wires)]) (range M)
  ++ map (fun i => (ResourceAdjoint (ResourceQFT k),
                    mode_register total_mode_wires k i)) (range M)
  ++ [(ResourceIdentity, electronic_wires)].

End Wired.

(** No queued operation is given the same wire twice. *)
Definition distinct_wires (ops : list Wired.WOp) : Prop :=
  Forall (fun op : Wired.WOp => NoDup (snd op)) ops.

(** ** Binary64 arithmetic *)

(** Python floats are binary64 numbers.  The definitions above take the
    result of every float operation as the exact real number; the ones
    below round it.  [round53] rounds to the nearest number with a
    significand of 53 bits, ties to even; the exponent range is left out,
    so it is the rounding of binary64 wherever nothing overflows or
    underflows. *)
Definition pow2 (k : Z) : R := powerRZ 2 k.

Definition Rlog2 (x : R) : R := (ln x / ln 2)%R.

(** The exponent [e] with [2^e <= |y| < 2^(e+1)]. *)
Definition binade (y : R) : Z := Zfloor (Rlog2 (Rabs y)).

Definition nearest_even (r : R) : Z :=
  let f := Zfloor r in
  if Rlt_dec (r - IZR f) (/ 2) then f
  else if Rlt_dec (/ 2) (r - IZR f) then f + 1
  else if Z.even f then f else f + 1.

Definition round53 (y : R) : R :=
  if Req_dec_T y 0 then 0%R
  else let s := pow2 (binade y - 52) in (IZR (nearest_even (y / s)) * s)%R.

(** [math.log2] on a Python integer.  A non-positive argument is a
    [ValueError].  The integer is converted to a float first; when that
    overflows (the rounded integer reaches [2^1024]) the logarithm is taken
    of the significand and the exponent is added to it.  The logarithm of
    the C library is taken as correctly rounded. *)
Definition math_log2 (n : Z) : result R :=
  if n <=? 0 then Raise ValueError
  else
    let x := round53 (IZR n) in
    if Rlt_dec x (pow2 1024) then Ok (round53 (Rlog2 x))
    else
      let e := binade x + 1 in
      Ok (round53 (round53 (Rlog2 (x / pow2 e)) + IZR e)).

(** One float operation whose exact result is [x] may return any [y]
    within the relative error [2^-52] of it: the bound that holds for
    division and multiplication (correctly rounded) and for the powers of
    the C library (below one unit in the last place), as long as nothing
    overflows or underflows. *)
Definition unit_roundoff : R := (/ 4503599627370496)%R.

Definition rounds (x y : R) : Prop :=
  (Rabs (y - x) <= unit_roundoff * Rabs x)%R.

Module Binary64.

(** [math.ceil(math.log2(n))] as the interpreter computes it. *)
Definition ceil_log2 (n : Z) : result Z :=
  let! f := math_log2 n in
  Ok (ceil f).

(** [AQFT_resource_decomp] with the float logarithm. *)
Definition AQFT_resource_decomp {K : Type} (num_wires : Z) (kwargs : K)
  : result (list GateItem) :=
  let! ceil_log_n := ceil_log2 num_wires in
  let aux_qubit_count := num_wires + 3 * ceil_log_n - 4 in
  let toff := "Toffoli" in
  let toff_count := 2 * num_wires * (ceil_log_n - 1) in
  Ok [ AllocWires aux_qubit_count;
       GateCount toff toff_count;
       FreeWires aux_qubit_count ].

(** [num_steps] on positive floats, operation by operation in the order
    of evaluation: the integers [n] the call may return. *)
Definition num_steps (norm req_error total_time : R) (n : Z) : Prop :=
  exists p q r v : R,
    rounds (Rpower total_time 1.5) p /\
    rounds (norm / req_error) q /\
    rounds (Rpower q 0.5) r /\
    rounds (p * r) v /\
    n = ceil v.

End Binary64.

(** Magnitudes on which the float operations of [num_steps] neither
    overflow nor underflow: between [10^-30] and [10^30]. *)
Definition in_range (x : R) : Prop :=
  (/ 1000000000000000000000000000000 <= x
   <= 1000000000000000000000000000000)%R.

(** Zero, or a float of either sign with such a magnitude. *)
Definition moderate (x : R) : Prop :=
  x = 0%R \/ in_range x \/ in_range (- x).

(** * Properties *)

(** ** The algebra of resource estimates *)

Section ResAlgebra.

#[local] Open Scope res_scope.

Implicit Types (a b c r : Resources) (d : gmap string Z) (n w : Z).

Lemma combine_dict_lookup d1 d2 (k : string) :
  combine_dict d1 d2 !! k =
    match d1 !! k, d2 !! k with
    | Some x, Some y => Some (x + y)
    | Some x, None => Some x
    | None, o => o
    end.
Proof.
  unfold combine_dict. rewrite lookup_union_with.
  destruct (d1 !! k), (d2 !! k); reflexivity.
Qed.

Lemma scale_dict_lookup d n (k : string) :
  scale_dict d n !! k = Z.mul n <$> d !! k.
Proof. unfold scale_dict. apply lookup_fmap. Qed.

Ltac dict_eq :=
  apply map_eq; intros ?k;
  rewrite ?combine_dict_lookup, ?scale_dict_lookup, ?combine_dict_lookup;
  repeat match goal with
         | |- context [?m !! ?k] => destruct (m !! k); simpl
         end;
  try reflexivity; try (f_equal; lia).

Lemma combine_dict_comm d1 d2 : combine_dict d1 d2 = combine_dict d2 d1.
Proof. dict_eq. Qed.

Lemma combine_dict_assoc d1 d2 d3 :
  combine_dict d1 (combine_dict d2 d3) = combine_dict (combine_dict d1 d2) d3.
Proof. dict_eq. Qed.

Lemma combine_dict_empty d : combine_dict ∅ d = d.
Proof. apply map_eq; intros k. rewrite combine_dict_lookup, lookup_empty. reflexivity. Qed.

Lemma scale_dict_succ d n :
  scale_dict d (1 + n) = combine_dict d (scale_dict d n).
Proof. dict_eq. Qed.

Lemma scale_dict_combine d1 d2 n :
  scale_dict (combine_dict d1 d2) n = combine_dict (scale_dict d1 n) (scale_dict d2 n).
Proof. dict_eq. Qed.

Lemma scale_dict_one d : scale_dict d 1 = d.
Proof. dict_eq. Qed.

Lemma add_comm a b : a ⊕ b = b ⊕ a.
Proof.
  unfold add_in_series. f_equal; [f_equal|]; try lia.
  - apply orb_comm.
  - apply combine_dict_comm.
Qed.

Lemma add_assoc a b c : a ⊕ (b ⊕ c) = a ⊕ b ⊕ c.
Proof.
  unfold add_in_series; simpl. f_equal; [f_equal|]; try lia.
  - apply orb_assoc.
  - apply combine_dict_assoc.
Qed.

Lemma add_zero_l a : valid a -> zero ⊕ a = a.
Proof.
  intros [Hc [Hd Ha]]. destruct a as [[c dq al t] g]; simpl in *.
  unfold add_in_series; simpl. rewrite combine_dict_empty.
  f_equal. f_equal; lia.
Qed.

Lemma add_zero_r a : valid a -> a ⊕ zero = a.
Proof. intros H. rewrite add_comm. by apply add_zero_l. Qed.

Lemma mul_one a : a ⊙ 1 = a.
Proof.
  destruct a as [[c dq al t] g]. unfold mul_in_series; simpl.
  rewrite scale_dict_one. f_equal. f_equal. lia.
Qed.

Lemma mul_succ a n : a ⊙ (1 + n) = a ⊕ a ⊙ n.
Proof.
  destruct a as [[c dq al t] g]. unfold mul_in_series, add_in_series; simpl.
  rewrite scale_dict_succ. f_equal. f_equal; try lia.
  by destruct t.
Qed.

Lemma mul_add_distr a b n : (a ⊕ b) ⊙ n = a ⊙ n ⊕ b ⊙ n.
Proof.
  unfold mul_in_series, add_in_series; simpl.
  rewrite scale_dict_combine. f_equal. f_equal. lia.
Qed.

Lemma gate_count_add name a b :
  gate_count name (a ⊕ b) = gate_count name a + gate_count name b.
Proof.
  unfold gate_count, add_in_series; simpl. rewrite combine_dict_lookup.
  destruct (gate_types a !! name), (gate_types b !! name); simpl; lia.
Qed.

Lemma gate_count_mul name a n :
  gate_count name (a ⊙ n) = n * gate_count name a.
Proof.
  unfold gate_count, mul_in_series; simpl. rewrite scale_dict_lookup.
  destruct (gate_types a !! name); simpl; lia.
Qed.

Lemma toffoli_add a b : toffoli (a ⊕ b) = toffoli a + toffoli b.
Proof. apply gate_count_add. Qed.

Lemma toffoli_mul a n : toffoli (a ⊙ n) = n * toffoli a.
Proof. apply gate_count_mul. Qed.

Lemma qubits_add a b :
  qubit_manager (a ⊕ b) =
    mkQM (Z.max (clean_qubits (qubit_manager a)) (clean_qubits (qubit_manager b)))
         (dirty_qubits (qubit_manager a) + dirty_qubits (qubit_manager b))
         (Z.max (algo_qubits (qubit_manager a)) (algo_qubits (qubit_manager b)))
         (tight_budget (qubit_manager a) || tight_budget (qubit_manager b)).
Proof. reflexivity. Qed.

(** Adding estimates one after the other does not depend on their order. *)
Lemma fold_add_perm (l l' : list Resources) :
  Permutation l l' ->
  forall init, fold_left add_in_series l init = fold_left add_in_series l' init.
Proof.
  induction 1 as [|x l l' _ IH|x y l|l1 l2 l3 _ IH1 _ IH2]; intros init; simpl.
  - reflexivity.
  - apply IH.
  - f_equal. rewrite <- !add_assoc. f_equal. apply add_comm.
  - by rewrite IH1.
Qed.

Lemma fold_add_init (l : list Resources) a b :
  fold_left add_in_series l (a ⊕ b) = a ⊕ fold_left add_in_series l b.
Proof.
  revert b. induction l as [|x l IH]; intros b; simpl; [reflexivity|].
  by rewrite <- add_assoc, IH.
Qed.

Lemma weighted_sum_fold init (wl : list (Z * Resources)) :
  weighted_sum init wl =
    fold_left add_in_series (map (fun p => snd p ⊙ fst p) wl) init.
Proof.
  unfold weighted_sum. revert init.
  induction wl as [|[w r] wl IH]; intros init; simpl; [reflexivity|apply IH].
Qed.

Lemma weighted_sum_perm init (wl wl' : list (Z * Resources)) :
  Permutation wl wl' -> weighted_sum init wl = weighted_sum init wl'.
Proof.
  intros H. rewrite !weighted_sum_fold.
  apply fold_add_perm. by apply Permutation_map.
Qed.

Lemma weighted_sum_left_right init (wl : list (Z * Resources)) :
  weighted_sum init wl = weighted_sum_right init wl.
Proof.
  rewrite weighted_sum_fold. unfold weighted_sum_right.
  revert init. induction wl as [|[w r] wl IH]; intros init; simpl; [reflexivity|].
  rewrite <- IH, add_comm. apply fold_add_init.
Qed.

Lemma mul_repeated a (n : nat) : (1 <= n)%nat -> a ⊙ Z.of_nat n = repeated a n.
Proof.
  unfold repeated. destruct n as [|n]; [lia|]. intros _.
  replace (S n - 1)%nat with n by lia.
  induction n as [|n IH]; simpl.
  - apply mul_one.
  - rewrite <- IH, add_comm.
    replace (Z.of_nat (S (S n))) with (1 + Z.of_nat (S n)) by lia.
    apply mul_succ.
Qed.

End ResAlgebra.

(** C7, as stated, fails at the natural number 0: no copy of an estimate
    adds up to the empty estimate, but an estimate scaled by 0 keeps its
    clean and algorithmic qubits (and a zero entry for each of its gates),
    so a term of weight 0 changes the total of an aggregation. *)
Lemma scaling_by_zero_not_empty :
  (sample_linear ⊙ Z.of_nat 0)%res <> zero /\
  total_qubits (qubit_manager (sample_linear ⊙ Z.of_nat 0)%res) = 146 /\
  weighted_sum zero [(0, sample_linear)] <> weighted_sum zero [].
Proof.
  split; [|split].
  - intros H. apply (f_equal (fun r => clean_qubits (qubit_manager r))) in H.
    discriminate H.
  - reflexivity.
  - intros H. apply (f_equal (fun r => clean_qubits (qubit_manager r))) in H.
    discriminate H.
Qed.

(** C7, amended. Addition of resource estimates is associative and
    commutative, with the empty estimate as its unit on estimates whose
    qubit counts are not negative, scaling by a natural number [n >= 1] is
    the sum of [n] copies, and a weighted aggregation of fragment estimates
    gives the same estimate (qubit breakdown and every gate count) in
    whatever order and from whichever end it is evaluated. *)
Theorem aggregation_order_irrelevant :
  (forall a b c : Resources, (a ⊕ (b ⊕ c) = a ⊕ b ⊕ c)%res) /\
  (forall a b : Resources, (a ⊕ b = b ⊕ a)%res) /\
  (forall a : Resources, valid a -> (zero ⊕ a = a /\ a ⊕ zero = a)%res) /\
  (forall (a : Resources) (n : nat), (1 <= n)%nat ->
     (a ⊙ Z.of_nat n)%res = repeated a n) /\
  (forall (init : Resources) (wl wl' : list (Z * Resources)),
     Permutation wl wl' ->
     weighted_sum init wl = weighted_sum init wl' /\
     weighted_sum init wl = weighted_sum_right init wl').
Proof.
  split; [exact add_assoc|].
  split; [exact add_comm|].
  split; [intros a Ha; split; [by apply add_zero_l|by apply add_zero_r]|].
  split; [exact mul_repeated|].
  intros init wl wl' Hp. split.
  - by apply weighted_sum_perm.
  - rewrite <- weighted_sum_left_right. by apply weighted_sum_perm.
Qed.

Lemma aggregation_order_irrelevant_witness :
  ((zero ⊕ sample_kinetic)%res = sample_kinetic /\
   (sample_kinetic ⊕ zero)%res = sample_kinetic) /\
  (sample_linear ⊙ Z.of_nat 2)%res = repeated sample_linear 2 /\
  weighted_sum sample_kinetic [(1, sample_linear); (2, sample_kinetic)] =
    weighted_sum sample_kinetic [(2, sample_kinetic); (1, sample_linear)].
Proof.
  destruct aggregation_order_irrelevant as (_ & _ & Hid & Hrep & Hperm).
  split; [|split].
  - apply Hid. unfold valid; simpl. lia.
  - apply Hrep. lia.
  - apply Hperm. apply perm_swap.
Defined.

(** ** Cost of a fragment *)

Section Fragments.

Context {Fragment : Type}.
Variable count_nonzero_Q_terms : Fragment -> Z * Z * Z.
Variables res_kinetic res_Q res_Qsquared res_QrQs : Resources.

Lemma res_list_length (fragments : list Fragment) :
  length (res_list count_nonzero_Q_terms res_kinetic res_Q res_Qsquared
            res_QrQs fragments) = S (length fragments - 1).
Proof.
  unfold res_list. simpl. rewrite length_map, length_take. lia.
Qed.

Lemma res_list_lookup (fragments : list Fragment) (i : nat) (frag : Fragment) :
  (i < length fragments - 1)%nat ->
  fragments !! i = Some frag ->
  res_list count_nonzero_Q_terms res_kinetic res_Q res_Qsquared res_QrQs
    fragments !! S i =
  Some (res_frag res_Q res_Qsquared res_QrQs (count_nonzero_Q_terms frag)).
Proof.
  intros Hi Hfrag. unfold res_list. simpl.
  rewrite list_lookup_fmap, lookup_take_lt by exact Hi.
  by rewrite Hfrag.
Qed.

End Fragments.

(** C5. The estimate the loop stores for a fragment other than the kinetic
    one is [num_Qr * res_Q + num_Qr2 * res_Qsquared + num_QrQs * res_QrQs],
    so each of its gate counts is that weighted sum of the three unit
    counts. *)
Theorem res_frag_weighted_sum {Fragment : Type}
  (count_nonzero_Q_terms : Fragment -> Z * Z * Z)
  (res_kinetic res_Q res_Qsquared res_QrQs : Resources)
  (fragments : list Fragment) (i : nat) (frag : Fragment)
  (num_Qr num_Qr2 num_QrQs : Z) :
  (i < length fragments - 1)%nat ->
  fragments !! i = Some frag ->
  count_nonzero_Q_terms frag = (num_Qr, num_Qr2, num_QrQs) ->
  exists r : Resources,
    res_list count_nonzero_Q_terms res_kinetic res_Q res_Qsquared res_QrQs
      fragments !! S i = Some r /\
    r = (res_Q ⊙ num_Qr ⊕ res_Qsquared ⊙ num_Qr2 ⊕ res_QrQs ⊙ num_QrQs)%res /\
    r = weighted_sum (res_Q ⊙ num_Qr)%res
          [(num_Qr2, res_Qsquared); (num_QrQs, res_QrQs)] /\
    forall name : string,
      gate_count name r =
        num_Qr * gate_count name res_Q
        + num_Qr2 * gate_count name res_Qsquared
        + num_QrQs * gate_count name res_QrQs.
Proof.
  intros Hi Hfrag Hcount.
  eexists. split; [by apply res_list_lookup|].
  rewrite Hcount. simpl. split; [reflexivity|]. split; [reflexivity|].
  intros name. by rewrite !gate_count_add, !gate_count_mul.
Qed.

Lemma res_frag_weighted_sum_witness :
  exists r : Resources,
    res_list (fun frag : Z * Z * Z => frag) sample_kinetic sample_linear
      sample_linear sample_linear [(3, 0, 1); (0, 0, 0)] !! 1%nat = Some r /\
    toffoli r = 584.
Proof.
  destruct (res_frag_weighted_sum (fun frag : Z * Z * Z => frag)
              sample_kinetic sample_linear sample_linear sample_linear
              [(3, 0, 1); (0, 0, 0)] 0 (3, 0, 1) 3 0 1)
    as (r & Hr & _ & _ & Hg).
  - simpl. lia.
  - reflexivity.
  - reflexivity.
  - exists r. split; [exact Hr|]. unfold toffoli. rewrite Hg. reflexivity.
Defined.

(** ** The second-order Trotter step *)

Section Step.

#[local] Open Scope res_scope.

Variable key : Resources -> Z.

Lemma insert_desc_perm (x : Resources) (l : list Resources) :
  Permutation (insert_desc key x l) (x :: l).
Proof.
  induction l as [|y ys IH]; simpl; [reflexivity|].
  destruct (key y <=? key x); [reflexivity|].
  rewrite IH. apply perm_swap.
Qed.

Lemma sorted_reverse_perm (l : list Resources) :
  Permutation (sorted_reverse key l) l.
Proof.
  induction l as [|x l IH]; simpl; [reflexivity|].
  rewrite insert_desc_perm. by constructor.
Qed.

Lemma insert_desc_descending (x : Resources) (l : list Resources) :
  descending key l -> descending key (insert_desc key x l).
Proof.
  induction 1 as [|y ys Hy Hys IH]; simpl.
  - constructor; constructor.
  - destruct (Z.leb_spec (key y) (key x)) as [Hle|Hlt].
    + constructor; [|by constructor].
      constructor; [exact Hle|].
      eapply Forall_impl; [exact Hy|]. simpl. intros z Hz. lia.
    + constructor; [|exact IH].
      rewrite insert_desc_perm. constructor; [lia|exact Hy].
Qed.

Lemma sorted_reverse_descending (l : list Resources) :
  descending key (sorted_reverse key l).
Proof.
  induction l as [|x l IH]; simpl; [constructor|].
  by apply insert_desc_descending.
Qed.

End Step.

Section StepCost.

#[local] Open Scope res_scope.

Lemma step_add_fold (top l : list Resources) (init : Resources) :
  fold_left (step_add top) l init =
    weighted_sum init (map (fun r => (2, r)) (filter (fun r => r ∉ top) l)).
Proof.
  revert init. induction l as [|x l IH]; intros init; simpl; [reflexivity|].
  unfold step_add at 2. rewrite filter_cons.
  case_bool_decide as Hx; case_decide as Hx'; try contradiction.
  - apply IH.
  - simpl. apply IH.
Qed.

Lemma filter_keeps (top l : list Resources) :
  (forall x, x ∈ l -> x ∉ top) -> filter (fun r => r ∉ top) l = l.
Proof.
  induction l as [|x l IH]; intros H; [reflexivity|].
  rewrite filter_cons. case_decide as Hx.
  - f_equal. apply IH. intros y Hy. apply H. by right.
  - exfalso. apply (H x); [by left|exact Hx].
Qed.

Lemma filter_drops (top l : list Resources) :
  (forall x, x ∈ l -> x ∈ top) -> filter (fun r => r ∉ top) l = [].
Proof.
  induction l as [|x l IH]; intros H; [reflexivity|].
  rewrite filter_cons. case_decide as Hx.
  - exfalso. apply Hx, H. by left.
  - apply IH. intros y Hy. apply H. by right.
Qed.

Lemma filter_not_in_top (top rest : list Resources) :
  NoDup (top ++ rest) ->
  filter (fun r => r ∉ top) (top ++ rest) = rest.
Proof.
  intros Hnd. apply NoDup_app in Hnd as (_ & Hdisj & _).
  rewrite filter_app, filter_drops by auto.
  simpl. apply filter_keeps. intros x Hx Hin. by apply (Hdisj x).
Qed.

(** On pairwise distinct estimates the step is the schedule of the text:
    the two estimates with the most Toffoli gates once, the others twice. *)
Lemma step_res_distinct (l : list Resources) :
  NoDup l -> (2 <= length l)%nat ->
  exists (e0 e1 : Resources) (rest : list Resources),
    sorted_reverse toffoli l = e0 :: e1 :: rest /\
    Permutation l (e0 :: e1 :: rest) /\
    toffoli e1 <= toffoli e0 /\
    Forall (fun r => toffoli r <= toffoli e1) rest /\
    step_res l = Ok (weighted_sum (e0 ⊕ e1) (map (fun r => (2, r)) rest)).
Proof.
  intros Hnd Hlen.
  pose proof (sorted_reverse_perm toffoli l) as Hperm.
  pose proof (sorted_reverse_descending toffoli l) as Hdesc.
  destruct (sorted_reverse toffoli l) as [|e0 [|e1 rest]] eqn:Hs.
  - apply Permutation_length in Hperm. simpl in Hperm. lia.
  - apply Permutation_length in Hperm. simpl in Hperm. lia.
  - exists e0, e1, rest. split; [reflexivity|].
    split; [by symmetry|].
    inversion Hdesc as [|? ? H0 Hd1]; subst.
    inversion Hd1 as [|? ? H1 Hd2]; subst.
    split; [by inversion H0|]. split; [exact H1|].
    unfold step_res. rewrite Hs. simpl.
    rewrite step_add_fold. f_equal.
    apply weighted_sum_perm, Permutation_map.
    assert (NoDup ([e0; e1] ++ rest)) as Hnd'.
    { simpl. by rewrite Hperm. }
    transitivity (filter (fun r => r ∉ [e0; e1]) ([e0; e1] ++ rest)).
    + apply filter_Permutation. by symmetry.
    + by rewrite filter_not_in_top.
Qed.

End StepCost.

(** C4. On the estimates [kinetic; linear; linear] the step comes out as
    [kinetic + linear], 5504 Toffoli gates: the third fragment equals one of
    the two most expensive estimates, so the test [res not in
    res_expensive_frags] skips it.  The schedule of the text, the two most
    expensive once and the remaining one twice, has 5796. *)
Theorem step_res_skips_equal_estimate :
  step_res [sample_kinetic; sample_linear; sample_linear] =
    Ok (sample_kinetic ⊕ sample_linear)%res /\
  toffoli (sample_kinetic ⊕ sample_linear)%res = 5504 /\
  toffoli (weighted_sum (sample_kinetic ⊕ sample_linear)%res
             [(2, sample_linear)]) = 5796.
Proof.
  split; [|split]; vm_compute; reflexivity.
Qed.

(** No schedule that counts each of the three fragments at least once
    has the Toffoli count the code returns there. *)
Lemma step_res_skips_any_schedule (w0 w1 w2 : Z) :
  1 <= w0 -> 1 <= w1 -> 1 <= w2 ->
  toffoli (weighted_sum zero
             [(w0, sample_kinetic); (w1, sample_linear); (w2, sample_linear)])
    <> toffoli (sample_kinetic ⊕ sample_linear)%res.
Proof.
  intros H0 H1 H2. unfold weighted_sum. simpl.
  rewrite !toffoli_add, !toffoli_mul.
  change (toffoli zero) with 0.
  change (toffoli sample_kinetic) with 5358.
  change (toffoli sample_linear) with 146.
  lia.
Qed.

(** ** The QFT resource override *)

Lemma ceil_log2_spec (n : Z) :
  2 <= n ->
  exists c : Z, ceil_log2 n = Ok c /\ 1 <= c /\ 2 ^ (c - 1) < n <= 2 ^ c.
Proof.
  intros Hn. exists (Z.log2_up n). unfold ceil_log2.
  destruct (Z.leb_spec n 0) as [H0|_]; [lia|].
  split; [reflexivity|].
  pose proof (Z.log2_up_spec n ltac:(lia)) as Hspec.
  pose proof (Z.log2_up_pos n ltac:(lia)) as Hpos.
  rewrite <- Z.sub_1_r in Hspec. lia.
Qed.

Lemma AQFT_gate_list {K : Type} (n c : Z) (kwargs : K) :
  ceil_log2 n = Ok c ->
  AQFT_resource_decomp n kwargs =
    Ok [ AllocWires (n + 3 * c - 4);
         GateCount "Toffoli" (2 * n * (c - 1));
         FreeWires (n + 3 * c - 4) ].
Proof. intros Hc. unfold AQFT_resource_decomp. rewrite Hc. reflexivity. Qed.

(** ** Loading the Hamiltonian *)

Lemma zeros_data (shp : list nat) :
  length (data (zeros shp)) = fold_right Nat.mul 1%nat shp /\
  Forall (fun x => x = 0%R) (data (zeros shp)).
Proof.
  unfold zeros; simpl. split.
  - apply repeat_length.
  - apply Forall_forall. intros x Hx.
    apply list_elem_of_In in Hx. by apply repeat_spec in Hx.
Qed.

(** C10. When the couplings dictionary has no entry 2 (and has the entries
    0 and 1 that the cell reads, the latter with at least three axes and a
    non-empty first one), loading succeeds with [QVC] false and [betas] the
    all-zero array of shape [(N, N, M, M)]. *)
Theorem load_cell_without_betas (omegas0 : list R)
  (couplings : gmap Z ndarray) (lam al : ndarray) (n x m : nat)
  (rest : list nat) :
  couplings !! 2 = None ->
  couplings !! 0 = Some lam ->
  couplings !! 1 = Some al ->
  shape al = n :: x :: m :: rest ->
  (1 <= n)%nat ->
  exists h : Hamiltonian,
    load_cell omegas0 couplings = Ok h /\
    QVC h = false /\ N h = n /\ M h = m /\
    betas h = zeros [n; n; m; m] /\
    shape (betas h) = [N h; N h; M h; M h] /\
    length (data (betas h)) = (N h * N h * M h * M h)%nat /\
    Forall (fun v => v = 0%R) (data (betas h)).
Proof.
  intros H2 H0 H1 Hshape Hn.
  unfold load_cell, getitem, index, ceil_log2.
  rewrite H2, H0, H1. simpl. rewrite Hshape. simpl.
  destruct (Z.leb_spec (Z.of_nat n) 0) as [Hle|_]; [lia|].
  rewrite ?bool_decide_eq_false_2 by (intros [? ?]; discriminate).
  simpl. eexists. split; [reflexivity|]. simpl.
  repeat split; try reflexivity.
  - rewrite repeat_length. lia.
  - apply (zeros_data [n; n; m; m]).
Qed.

Lemma load_cell_without_betas_witness :
  exists h : Hamiltonian,
    load_cell [] sample_couplings = Ok h /\
    betas h = zeros [2; 2; 3; 3]%nat.
Proof.
  destruct (load_cell_without_betas [] sample_couplings
              (zeros [2; 2]%nat) (zeros [2; 2; 3]%nat) 2 2 3 [])
    as (h & Hh & _ & _ & _ & Hb & _).
  - reflexivity.
  - reflexivity.
  - reflexivity.
  - reflexivity.
  - lia.
  - exists h. split; [exact Hh|exact Hb].
Defined.

(** With an entry 2 present, [betas] is that entry. *)
Lemma load_cell_with_betas (omegas0 : list R)
  (couplings : gmap Z ndarray) (lam al be : ndarray) (n x m : nat)
  (rest : list nat) :
  couplings !! 2 = Some be ->
  couplings !! 0 = Some lam ->
  couplings !! 1 = Some al ->
  shape al = n :: x :: m :: rest ->
  (1 <= n)%nat ->
  exists h : Hamiltonian,
    load_cell omegas0 couplings = Ok h /\ QVC h = true /\ betas h = be.
Proof.
  intros H2 H0 H1 Hshape Hn.
  unfold load_cell, getitem, index, ceil_log2.
  rewrite H2, H0, H1. simpl. rewrite Hshape. simpl.
  destruct (Z.leb_spec (Z.of_nat n) 0) as [Hle|_]; [lia|].
  rewrite ?bool_decide_eq_true_2 by eauto.
  simpl. eexists. split; [reflexivity|]. by simpl.
Qed.

(** ** The number of Trotter steps *)

Section NumSteps.

#[local] Open Scope R_scope.

Lemma ceil_spec (x : R) : IZR (ceil x) - 1 < x <= IZR (ceil x).
Proof.
  unfold ceil. rewrite minus_IZR.
  destruct (archimed (- x)) as [H1 H2]. lra.
Qed.

Lemma ceil_unique (x : R) (n : Z) : IZR n - 1 < x <= IZR n -> ceil x = n.
Proof.
  intros [Hlo Hhi]. destruct (ceil_spec x) as [Clo Chi].
  assert (IZR (ceil x) < IZR (n + 1)) as H1 by (rewrite plus_IZR; lra).
  assert (IZR n < IZR (ceil x + 1)) as H2 by (rewrite plus_IZR; lra).
  apply lt_IZR in H1, H2. lia.
Qed.


Lemma float_pow_nonneg (x y : R) :
  0 <= x -> float_pow x y = Some (pow_nonneg x y).
Proof.
  intros Hx. unfold float_pow, pow_nonneg.
  destruct (Rlt_dec x 0) as [Hneg|_]; [lra|]. by destruct (Req_dec_T x 0).
Qed.

Lemma float_pow_neg (x y : R) : x < 0 -> float_pow x y = None.
Proof.
  intros Hx. unfold float_pow. by destruct (Rlt_dec x 0).
Qed.

Lemma pow_nonneg_pos (x y : R) : 0 < x -> pow_nonneg x y = Rpower x y.
Proof.
  intros Hx. unfold pow_nonneg. destruct (Req_dec_T x 0); [lra|reflexivity].
Qed.

Lemma pow_nonneg_ge0 (x y : R) : 0 <= pow_nonneg x y.
Proof.
  unfold pow_nonneg. destruct (Req_dec_T x 0); [lra|].
  unfold Rpower. left. apply exp_pos.
Qed.


Lemma Rpower_half (x : R) : 0 < x -> Rpower x 0.5 = sqrt x.
Proof.
  intros Hx. replace 0.5 with (/ 2) by lra. by apply Rpower_sqrt.
Qed.

Lemma num_steps_nonneg (norm req_error total_time : R) :
  0 <= norm -> 0 < req_error -> 0 <= total_time ->
  num_steps norm req_error total_time =
    Ok (ceil (pow_nonneg total_time 1.5 * pow_nonneg (norm / req_error) 0.5)).
Proof.
  intros Hn He Ht. unfold num_steps.
  destruct (Req_dec_T req_error 0) as [H0|_]; [lra|].
  rewrite !float_pow_nonneg; [reflexivity| |exact Ht].
  unfold Rdiv. apply Rmult_le_pos; [exact Hn|]. left. by apply Rinv_0_lt_compat.
Qed.

Lemma num_steps_pos (norm req_error total_time : R) :
  0 < norm -> 0 < req_error -> 0 < total_time ->
  num_steps norm req_error total_time =
    Ok (ceil (trotter_formula norm req_error total_time)).
Proof.
  intros Hn He Ht. rewrite num_steps_nonneg by lra.
  assert (0 < norm / req_error) as Hq.
  { unfold Rdiv. apply Rmult_lt_0_compat; [exact Hn|]. by apply Rinv_0_lt_compat. }
  rewrite !pow_nonneg_pos by assumption.
  unfold trotter_formula. by rewrite Rpower_half.
Qed.

Lemma Rpower_one_base (y : R) : Rpower 1 y = 1.
Proof. unfold Rpower. by rewrite ln_1, Rmult_0_r, exp_0. Qed.

Lemma sqrt_2_bounds : 1 < sqrt 2 < 2.
Proof.
  split.
  - rewrite <- sqrt_1 at 1. apply sqrt_lt_1_alt. lra.
  - apply sqrt_less; lra.
Qed.

Lemma trotter_formula_2_1_1 : trotter_formula 2 1 1 = sqrt 2.
Proof.
  unfold trotter_formula. rewrite Rpower_one_base.
  replace (2 / 1) with 2 by lra. lra.
Qed.

End NumSteps.

(** ** Binary64 arithmetic: powers of two, rounding, the logarithm *)

Section Pow2.
#[local] Open Scope R_scope.

Lemma pow2_pos k : 0 < pow2 k.
Proof. apply powerRZ_lt. lra. Qed.

Lemma pow2_add a b : pow2 (a + b) = pow2 a * pow2 b.
Proof. apply powerRZ_add. lra. Qed.

Lemma pow2_IZR k : (0 <= k)%Z -> pow2 k = IZR (2 ^ k).
Proof.
  intros Hk. unfold pow2. rewrite <- (Z2Nat.id k Hk) at 1.
  rewrite <- pow_powerRZ, pow_IZR. by rewrite Z2Nat.id.
Qed.

Lemma pow2_0 : pow2 0 = 1.
Proof. reflexivity. Qed.

Lemma pow2_lt a b : (a < b)%Z -> pow2 a < pow2 b.
Proof.
  intros Hab. replace b with (a + (b - a))%Z by lia.
  rewrite pow2_add, (pow2_IZR (b - a)) by lia.
  assert (2 ^ 1 <= 2 ^ (b - a))%Z as H by (apply Z.pow_le_mono_r; lia).
  apply IZR_le in H. change (IZR (2 ^ 1)) with 2 in H.
  pose proof (pow2_pos a). nra.
Qed.

Lemma pow2_le a b : (a <= b)%Z -> pow2 a <= pow2 b.
Proof.
  intros Hab. destruct (Z.eq_dec a b) as [->|]; [lra|].
  left. apply pow2_lt. lia.
Qed.

Lemma pow2_lt_inv a b : pow2 a < pow2 b -> (a < b)%Z.
Proof.
  intros H. destruct (Z.lt_ge_cases a b) as [|Hge]; [done|].
  apply pow2_le in Hge. lra.
Qed.

Lemma pow2_inv k : pow2 (- k) = / pow2 k.
Proof.
  pose proof (pow2_pos k). pose proof (pow2_add k (- k)) as H'.
  rewrite Z.add_opp_diag_r, pow2_0 in H'.
  apply Rmult_eq_reg_l with (pow2 k); [|lra]. rewrite <- H'. field. lra.
Qed.

Lemma ln_2_pos : 0 < ln 2.
Proof. pose proof ln_lt_2. lra. Qed.

Lemma Rlog2_pow2 k : Rlog2 (pow2 k) = IZR k.
Proof.
  unfold Rlog2, pow2. rewrite powerRZ_Rpower by lra. rewrite ln_Rpower.
  field. pose proof ln_2_pos. lra.
Qed.

Lemma Rlog2_lt x y : 0 < x -> x < y -> Rlog2 x < Rlog2 y.
Proof.
  intros Hx Hxy. unfold Rlog2. pose proof ln_2_pos.
  apply Rmult_lt_compat_r; [by apply Rinv_0_lt_compat|].
  by apply ln_increasing.
Qed.

Lemma Rlog2_le x y : 0 < x -> x <= y -> Rlog2 x <= Rlog2 y.
Proof.
  intros Hx [Hlt| ->]; [left; by apply Rlog2_lt|lra].
Qed.

Lemma Rlog2_mult x y : 0 < x -> 0 < y -> Rlog2 (x * y) = Rlog2 x + Rlog2 y.
Proof.
  intros Hx Hy. unfold Rlog2. rewrite ln_mult by assumption. field.
  pose proof ln_2_pos. lra.
Qed.

Lemma binade_spec y : 0 < y -> pow2 (binade y) <= y < pow2 (binade y + 1).
Proof.
  intros Hy. unfold binade. rewrite Rabs_pos_eq by lra.
  destruct (Zfloor_bound (Rlog2 y)) as [Hlo Hhi].
  set (k := Zfloor (Rlog2 y)) in *. split.
  - destruct (Rle_lt_dec (pow2 k) y) as [|Hlt]; [done|].
    apply (Rlog2_lt _ _ Hy) in Hlt. rewrite Rlog2_pow2 in Hlt. lra.
  - destruct (Rlt_le_dec y (pow2 (k + 1))) as [|Hle]; [done|].
    apply Rlog2_le in Hle; [|apply pow2_pos].
    rewrite Rlog2_pow2, plus_IZR in Hle. lra.
Qed.

Lemma binade_unique y k : pow2 k <= y < pow2 (k + 1) -> binade y = k.
Proof.
  intros [Hlo Hhi]. pose proof (pow2_pos k).
  destruct (binade_spec y ltac:(lra)) as [Blo Bhi].
  assert (binade y < k + 1)%Z by (apply pow2_lt_inv; lra).
  assert (k < binade y + 1)%Z by (apply pow2_lt_inv; lra).
  lia.
Qed.

Lemma nearest_even_IZR m : nearest_even (IZR m) = m.
Proof.
  unfold nearest_even. rewrite ZfloorZ.
  destruct (Rlt_dec _ _) as [|Hn]; [done|]. exfalso. apply Hn. lra.
Qed.

Lemma nearest_even_err r : - / 2 <= IZR (nearest_even r) - r <= / 2.
Proof.
  unfold nearest_even. destruct (Zfloor_bound r) as [Hlo Hhi].
  set (f := Zfloor r) in *.
  destruct (Rlt_dec _ _); [lra|].
  destruct (Rlt_dec _ _); [rewrite plus_IZR; lra|].
  destruct (Z.even f); [|rewrite plus_IZR]; lra.
Qed.

Lemma nearest_even_le r m : r <= IZR m -> (nearest_even r <= m)%Z.
Proof.
  intros Hr. unfold nearest_even. destruct (Zfloor_bound r) as [Hlo Hhi].
  set (f := Zfloor r) in *.
  assert (f <= m)%Z by (apply le_IZR; lra).
  assert (/ 2 <= r - IZR f -> (f + 1 <= m)%Z) as Hup.
  { intros Hf. assert (IZR f < IZR m) as Hlt by lra. apply lt_IZR in Hlt. lia. }
  destruct (Rlt_dec _ _); [done|].
  destruct (Rlt_dec _ _); [apply Hup; lra|].
  destruct (Z.even f); [done|apply Hup; lra].
Qed.

Lemma nearest_even_floor r (m : Z) :
  IZR m <= r < IZR m + / 2 -> nearest_even r = m.
Proof.
  intros [Hlo Hhi]. unfold nearest_even.
  rewrite (Zfloor_eq m r) by lra.
  destruct (Rlt_dec _ _) as [|Hn]; [done|]. exfalso. apply Hn. lra.
Qed.

(** A value on the grid of its binade is left alone. *)
Lemma round53_grid (y : R) (m : Z) :
  0 < y -> y = IZR m * pow2 (binade y - 52) -> round53 y = y.
Proof.
  intros Hy Hm. unfold round53. destruct (Req_dec_T y 0); [lra|].
  simpl. pose proof (pow2_pos (binade y - 52)) as Hs.
  replace (y / pow2 (binade y - 52)) with (IZR m).
  - rewrite nearest_even_IZR. lra.
  - rewrite Hm at 1. field. lra.
Qed.

Lemma round53_int (m : Z) : (1 <= m < 2 ^ 53)%Z -> round53 (IZR m) = IZR m.
Proof.
  intros [Hlo Hhi].
  assert (0 < IZR m) as Hpos by (apply IZR_lt; lia).
  destruct (binade_spec (IZR m) Hpos) as [Blo Bhi].
  set (k := binade (IZR m)) in *.
  assert (k < 53)%Z as Hk.
  { apply pow2_lt_inv. rewrite (pow2_IZR 53) by lia.
    apply IZR_lt in Hhi. lra. }
  apply (round53_grid _ (m * 2 ^ (52 - k))); [done|]. fold k.
  rewrite mult_IZR, <- pow2_IZR by lia.
  rewrite Rmult_assoc, <- pow2_add.
  replace (52 - k + (k - 52))%Z with 0%Z by lia. rewrite pow2_0. lra.
Qed.

End Pow2.

Section Log2.
#[local] Open Scope R_scope.

Lemma ln_one_plus_lt z : 0 < z -> ln (1 + z) < z.
Proof.
  intros Hz. pose proof (exp_ineq1 z ltac:(lra)) as H.
  apply ln_increasing in H; [|lra]. by rewrite ln_exp in H.
Qed.

Lemma ln_one_plus_gt z : 0 < z -> z / (1 + z) < ln (1 + z).
Proof.
  intros Hz.
  assert (0 < / (1 + z)) as Hi by (apply Rinv_0_lt_compat; lra).
  pose proof (exp_ineq1 (- (z / (1 + z)))) as H.
  assert (- (z / (1 + z)) <> 0) as Hne.
  { unfold Rdiv. assert (0 < z * / (1 + z)) by (apply Rmult_lt_0_compat; lra). lra. }
  specialize (H Hne).
  replace (1 + - (z / (1 + z))) with (/ (1 + z)) in H by (field; lra).
  apply ln_increasing in H; [|lra].
  rewrite ln_exp, ln_Rinv in H by lra. lra.
Qed.

Lemma ln_2_lt : ln 2 < 9 / 10.
Proof.
  assert (sqrt 2 < 29 / 20) as Hs.
  { rewrite <- (sqrt_square (29 / 20)) by lra. apply sqrt_lt_1_alt. lra. }
  assert (1 < sqrt 2) as Hs1.
  { rewrite <- sqrt_1 at 1. apply sqrt_lt_1_alt. lra. }
  pose proof (ln_one_plus_lt (sqrt 2 - 1) ltac:(lra)) as H.
  replace (1 + (sqrt 2 - 1)) with (sqrt 2) in H by lra.
  assert (ln 2 = ln (sqrt 2) + ln (sqrt 2)) as ->; [|lra].
  rewrite <- ln_mult by lra. by rewrite sqrt_sqrt by lra.
Qed.

Lemma Rlog2_one_plus_lt z : 0 < z -> 0 < Rlog2 (1 + z) < 2 * z.
Proof.
  intros Hz. unfold Rlog2. pose proof ln_lt_2 as H2.
  pose proof (ln_one_plus_lt z Hz) as Hhi.
  pose proof (ln_one_plus_gt z Hz) as Hlo.
  assert (0 < z / (1 + z)).
  { unfold Rdiv. apply Rmult_lt_0_compat; [lra|]. apply Rinv_0_lt_compat. lra. }
  assert (0 < / ln 2) as Hi by (apply Rinv_0_lt_compat; lra).
  assert (/ ln 2 < 2).
  { apply Rmult_lt_reg_r with (ln 2); [lra|].
    rewrite Rinv_l by lra. lra. }
  split; [unfold Rdiv; apply Rmult_lt_0_compat; lra|].
  unfold Rdiv. nra.
Qed.

Lemma Rlog2_one_plus_ge z : 0 < z <= / 9 -> z <= Rlog2 (1 + z).
Proof.
  intros [Hz Hz9]. unfold Rlog2. pose proof ln_2_lt as H2. pose proof ln_2_pos.
  pose proof (ln_one_plus_gt z Hz) as Hlo.
  assert (9 / 10 * z <= z / (1 + z)).
  { apply Rmult_le_reg_r with (1 + z); [lra|].
    replace (z / (1 + z) * (1 + z)) with z by (field; lra). nra. }
  apply Rmult_le_reg_r with (ln 2); [lra|].
  replace (ln (1 + z) / ln 2 * ln 2) with (ln (1 + z)) by (field; lra).
  nra.
Qed.

Lemma Rlog2_IZR_pow2 (c : Z) : (0 <= c)%Z -> Rlog2 (IZR (2 ^ c)) = IZR c.
Proof. intros Hc. by rewrite <- pow2_IZR, Rlog2_pow2. Qed.

(** Between two powers of two the rounded logarithm stays strictly above
    the lower exponent, as long as the exponent is below 48. *)
Lemma round53_log2_between (n c : Z) :
  (2 <= c <= 48)%Z -> (2 ^ (c - 1) < n < 2 ^ c)%Z ->
  IZR c - 1 < round53 (Rlog2 (IZR n)) <= IZR c.
Proof.
  intros Hc [Hlo Hhi].
  set (y := Rlog2 (IZR n)).
  assert (0 < IZR (2 ^ (c - 1))) as Hp by (apply IZR_lt; lia).
  assert (0 < IZR n) as Hn by (apply IZR_lt; lia).
  assert (y < IZR c) as Hyc.
  { unfold y. rewrite <- (Rlog2_IZR_pow2 c) by lia. apply Rlog2_lt; [done|].
    by apply IZR_lt. }
  assert (IZR c - 1 + pow2 (-47) <= y) as Hyl.
  { unfold y.
    replace (IZR n) with (IZR (2 ^ (c - 1)) * (IZR n / IZR (2 ^ (c - 1))))
      by (field; lra).
    assert (1 + pow2 (-47) <= IZR n / IZR (2 ^ (c - 1))) as Hq.
    { apply Rmult_le_reg_r with (IZR (2 ^ (c - 1))); [done|].
      replace (IZR n / IZR (2 ^ (c - 1)) * IZR (2 ^ (c - 1))) with (IZR n)
        by (field; lra).
      assert (IZR (2 ^ (c - 1)) + 1 <= IZR n).
      { rewrite <- plus_IZR. apply IZR_le. lia. }
      assert (pow2 (-47) * IZR (2 ^ (c - 1)) <= 1); [|lra].
      rewrite <- pow2_IZR, <- pow2_add by lia. rewrite <- pow2_0.
      apply pow2_le. lia. }
    pose proof (pow2_pos (-47)) as H47.
    rewrite Rlog2_mult; [|done|lra].
    rewrite (Rlog2_IZR_pow2 (c - 1)) by lia. rewrite minus_IZR.
    assert (pow2 (-47) <= Rlog2 (IZR n / IZR (2 ^ (c - 1)))); [|lra].
    etransitivity; [apply Rlog2_one_plus_ge|apply Rlog2_le; [lra|exact Hq]].
    split; [done|].
    replace (pow2 (-47)) with (/ pow2 47) by (symmetry; apply (pow2_inv 47)).
    rewrite (pow2_IZR 47) by lia.
    apply Rinv_le_contravar; [lra|]. apply IZR_le. lia. }
  assert (1 <= y < 64) as Hy.
  { pose proof (pow2_pos (-47)). assert (2 <= IZR c <= 48) as [? ?].
    { split; apply IZR_le; lia. } lra. }
  destruct (binade_spec y ltac:(lra)) as [Blo Bhi].
  set (k := binade y) in *.
  assert (0 <= k <= 5)%Z as Hk.
  { split.
    - assert (0 < k + 1)%Z; [|lia]. apply pow2_lt_inv. rewrite pow2_0. lra.
    - assert (k < 6)%Z; [|lia]. apply pow2_lt_inv.
      rewrite (pow2_IZR 6) by lia. change (IZR (2 ^ 6)) with 64. lra. }
  unfold round53. destruct (Req_dec_T y 0); [lra|]. simpl. fold k.
  set (s := pow2 (k - 52)).
  assert (0 < s) as Hs by apply pow2_pos.
  assert (s <= pow2 (-47)) as Hs47 by (apply pow2_le; lia).
  pose proof (nearest_even_err (y / s)) as Herr.
  assert (y / s * s = y) as Hys by (field; lra).
  split.
  - assert (y - s / 2 <= IZR (nearest_even (y / s)) * s); [nra|].
    pose proof (pow2_pos (-47)). lra.
  - assert (nearest_even (y / s) <= c * 2 ^ (52 - k))%Z as Hle.
    { apply nearest_even_le. rewrite mult_IZR, <- pow2_IZR by lia.
      apply Rmult_le_reg_r with s; [done|]. rewrite Hys.
      unfold s. rewrite Rmult_assoc, <- pow2_add.
      replace (52 - k + (k - 52))%Z with 0%Z by lia. rewrite pow2_0. lra. }
    apply IZR_le in Hle. rewrite mult_IZR, <- pow2_IZR in Hle by lia.
    assert (pow2 (52 - k) * s = 1) as H1.
    { unfold s. rewrite <- pow2_add.
      replace (52 - k + (k - 52))%Z with 0%Z by lia. apply pow2_0. }
    nra.
Qed.

End Log2.

Section CeilLog2.
#[local] Open Scope R_scope.

Lemma math_log2_exact_int (n : Z) :
  (1 <= n < 2 ^ 53)%Z -> math_log2 n = Ok (round53 (Rlog2 (IZR n))).
Proof.
  intros Hn. unfold math_log2.
  destruct (Z.leb_spec n 0) as [|_]; [lia|].
  rewrite round53_int by exact Hn.
  destruct (Rlt_dec (IZR n) (pow2 1024)) as [_|Hge]; [reflexivity|].
  exfalso. apply Hge.
  apply Rlt_trans with (pow2 53); [|apply pow2_lt; lia].
  rewrite (pow2_IZR 53) by lia. apply IZR_lt. lia.
Qed.

Lemma ceil_IZR (c : Z) : ceil (IZR c) = c.
Proof. apply ceil_unique. lra. Qed.

Lemma round53_small_int (c : Z) : (0 <= c < 2 ^ 53)%Z -> round53 (IZR c) = IZR c.
Proof.
  intros Hc. destruct (Z.eq_dec c 0%Z) as [->|Hne].
  - unfold round53. destruct (Req_dec_T 0 0); [reflexivity|lra].
  - apply round53_int. lia.
Qed.

Lemma ceil_log2_binary64 (n : Z) :
  (1 <= n <= 2 ^ 48)%Z -> Binary64.ceil_log2 n = Ok (Z.log2_up n).
Proof.
  intros Hn. unfold Binary64.ceil_log2.
  rewrite math_log2_exact_int by lia. simpl. f_equal.
  set (c := Z.log2_up n).
  assert (0 <= c <= 48)%Z as Hc.
  { split; [apply Z.log2_up_nonneg|]. apply Z.log2_up_le_pow2; lia. }
  destruct (Z.eq_dec n (2 ^ c)%Z) as [Heq|Hne].
  - rewrite Heq, Rlog2_IZR_pow2 by lia.
    rewrite round53_small_int by lia. apply ceil_IZR.
  - assert (1 < n)%Z as Hn1.
    { destruct (Z.eq_dec n 1%Z) as [->|]; [|lia]. exfalso. apply Hne. reflexivity. }
    pose proof (Z.log2_up_spec n Hn1) as Hspec. fold c in Hspec.
    rewrite <- Z.sub_1_r in Hspec.
    assert (2 <= c)%Z.
    { destruct (Z.eq_dec c 0%Z) as [H0|]; [rewrite H0 in *; simpl in *; lia|].
      destruct (Z.eq_dec c 1%Z) as [H1|]; [rewrite H1 in *; simpl in *; lia|]. lia. }
    apply ceil_unique. apply round53_log2_between; lia.
Qed.

Lemma ceil_log2_binary64_drops : Binary64.ceil_log2 (2 ^ 49 + 1) = Ok 49%Z.
Proof.
  unfold Binary64.ceil_log2. rewrite math_log2_exact_int by lia. simpl. f_equal.
  set (y := Rlog2 (IZR (2 ^ 49 + 1))).
  assert (IZR (2 ^ 49 + 1) = pow2 49 * (1 + pow2 (-49))) as Hn.
  { rewrite Rmult_plus_distr_l, <- pow2_add.
    change (49 + -49)%Z with 0%Z. rewrite pow2_0.
    rewrite plus_IZR, <- (pow2_IZR 49) by lia. lra. }
  pose proof (pow2_pos 49) as H49. pose proof (pow2_pos (-49)) as Hm49.
  pose proof (Rlog2_one_plus_lt (pow2 (-49)) Hm49) as [Hd0 Hd1].
  assert (y = 49 + Rlog2 (1 + pow2 (-49))) as Hy.
  { unfold y. rewrite Hn, Rlog2_mult by lra. by rewrite Rlog2_pow2. }
  set (d := Rlog2 (1 + pow2 (-49))) in *.
  assert (2 * pow2 (-49) = pow2 (-48)) as H48.
  { assert (pow2 1 = 2) as <- by (rewrite (pow2_IZR 1) by lia; reflexivity).
    rewrite <- pow2_add. reflexivity. }
  assert (pow2 (-48) <= 1) as H48'.
  { rewrite <- pow2_0. apply pow2_le. lia. }
  assert (binade y = 5%Z) as Hk.
  { apply binade_unique. rewrite (pow2_IZR 5), (pow2_IZR (5 + 1)) by lia.
    change (IZR (2 ^ 5)) with 32. change (IZR (2 ^ (5 + 1))) with 64. lra. }
  unfold round53. destruct (Req_dec_T y 0); [lra|]. simpl. rewrite Hk.
  change (5 - 52)%Z with (-47)%Z.
  pose proof (pow2_pos (-47)) as H47.
  assert (pow2 47 * pow2 (-47) = 1) as Hinv.
  { rewrite <- pow2_add. reflexivity. }
  assert (pow2 (-48) * pow2 47 = / 2) as Hhalf.
  { rewrite <- pow2_add. change (-48 + 47)%Z with (- (1))%Z.
    rewrite (pow2_inv 1), (pow2_IZR 1) by lia. reflexivity. }
  assert (nearest_even (y / pow2 (-47)) = (49 * 2 ^ 47)%Z) as ->.
  { apply nearest_even_floor.
    replace (y / pow2 (-47)) with (y * pow2 47) by (field_simplify_eq; [nra|lra]).
    rewrite mult_IZR, <- (pow2_IZR 47) by lia.
    pose proof (pow2_pos 47). rewrite Hy. split; [nra|].
    assert (d * pow2 47 < / 2); [|lra]. nra. }
  rewrite mult_IZR, <- (pow2_IZR 47) by lia.
  replace (49 * pow2 47 * pow2 (-47)) with 49 by nra.
  apply ceil_IZR.
Qed.

End CeilLog2.

(** ** The QFT resource override as the interpreter computes it *)

Lemma ceil_log2_binary64_ok (n : Z) :
  1 <= n -> exists c : Z, Binary64.ceil_log2 n = Ok c.
Proof.
  intros Hn. unfold Binary64.ceil_log2, math_log2.
  destruct (Z.leb_spec n 0) as [|_]; [lia|].
  destruct (Rlt_dec _ _); eexists; reflexivity.
Qed.

Lemma AQFT_gate_list_binary64 {K : Type} (n c : Z) (kwargs : K) :
  Binary64.ceil_log2 n = Ok c ->
  Binary64.AQFT_resource_decomp n kwargs =
    Ok [ AllocWires (n + 3 * c - 4);
         GateCount "Toffoli" (2 * n * (c - 1));
         FreeWires (n + 3 * c - 4) ].
Proof.
  intros Hc. unfold Binary64.AQFT_resource_decomp. rewrite Hc. reflexivity.
Qed.

(** Up to [2^48] wires the float logarithm changes nothing. *)
Lemma AQFT_binary64_exact {K : Type} (n : Z) (kwargs : K) :
  1 <= n <= 2 ^ 48 ->
  Binary64.AQFT_resource_decomp n kwargs = AQFT_resource_decomp n kwargs.
Proof.
  intros Hn. unfold Binary64.AQFT_resource_decomp, AQFT_resource_decomp.
  rewrite ceil_log2_binary64 by exact Hn. unfold ceil_log2.
  destruct (Z.leb_spec n 0) as [|_]; [lia|reflexivity].
Qed.

(** C3, as stated, fails: for [2^49 + 1] wires the ceiling of the binary
    logarithm is 50, but [math.log2] returns [49.0], so the override counts
    with 49. *)
Lemma AQFT_closed_form_fails :
  2 ^ (50 - 1) < 2 ^ 49 + 1 <= 2 ^ 50 /\
  exists gl : list GateItem,
    Binary64.AQFT_resource_decomp (2 ^ 49 + 1) tt = Ok gl /\
    gates_named "Toffoli" gl = 2 * (2 ^ 49 + 1) * (49 - 1) /\
    gates_named "Toffoli" gl <> 2 * (2 ^ 49 + 1) * (50 - 1) /\
    wires_allocated gl <> 2 ^ 49 + 1 + 3 * 50 - 4.
Proof.
  split; [lia|]. eexists.
  split; [apply AQFT_gate_list_binary64, ceil_log2_binary64_drops|].
  split; [reflexivity|]. split; vm_compute; discriminate.
Qed.

(** C3, amended. For [2 <= n <= 2^48] wires the override returns a gate
    list whose Toffoli count is [2 * n * (c - 1)] and whose auxiliary-wire
    allocation is [n + 3 * c - 4], where [c] is the ceiling of the binary
    logarithm of [n] (the integer with [2 ^ (c - 1) < n <= 2 ^ c]); it counts
    no other gate, and the keyword arguments do not change the result. *)
Theorem AQFT_closed_form {K : Type} (n : Z) (kwargs : K) :
  2 <= n <= 2 ^ 48 ->
  exists (c : Z) (gl : list GateItem),
    2 ^ (c - 1) < n <= 2 ^ c /\
    Binary64.AQFT_resource_decomp n kwargs = Ok gl /\
    gates_named "Toffoli" gl = 2 * n * (c - 1) /\
    wires_allocated gl = n + 3 * c - 4 /\
    (forall name : string, name <> "Toffoli" -> gates_named name gl = 0) /\
    (forall (K' : Type) (kwargs' : K'),
       Binary64.AQFT_resource_decomp n kwargs' = Ok gl).
Proof.
  intros Hn.
  pose proof (ceil_log2_binary64 n ltac:(lia)) as Hc.
  pose proof (Z.log2_up_spec n ltac:(lia)) as Hpow.
  rewrite <- Z.sub_1_r in Hpow.
  exists (Z.log2_up n). eexists. split; [exact Hpow|].
  split; [by apply AQFT_gate_list_binary64|].
  split; [simpl; lia|]. split; [simpl; lia|]. split.
  - intros name Hname. cbn [gates_named fold_right].
    destruct (String.eqb_spec "Toffoli" name) as [Heq|_]; [by subst|reflexivity].
  - intros K' kwargs'. by apply AQFT_gate_list_binary64.
Qed.

Lemma AQFT_closed_form_witness :
  exists (c : Z) (gl : list GateItem),
    2 ^ (c - 1) < 4 <= 2 ^ c /\
    Binary64.AQFT_resource_decomp 4 [("precision", 1)] = Ok gl /\
    gates_named "Toffoli" gl = 2 * 4 * (c - 1) /\
    wires_allocated gl = 4 + 3 * c - 4.
Proof.
  destruct (AQFT_closed_form 4 [("precision", 1)] ltac:(lia))
    as (c & gl & Hpow & Hgl & Ht & Ha & _).
  exists c, gl. split; [exact Hpow|]. split; [exact Hgl|].
  split; [exact Ht|exact Ha].
Defined.

(** C9, as stated, fails in the count: for [2^49 + 1] wires the gate list
    allocates and frees [n + 3 * 49 - 4] wires, three fewer than the
    [n + 3 * 50 - 4] of the claim. *)
Lemma AQFT_wires_count_fails :
  Z.log2_up (2 ^ 49 + 1) = 50 /\
  exists gl : list GateItem,
    Binary64.AQFT_resource_decomp (2 ^ 49 + 1) tt = Ok gl /\
    wires_allocated gl = 2 ^ 49 + 1 + 3 * 49 - 4 /\
    wires_freed gl = 2 ^ 49 + 1 + 3 * 49 - 4 /\
    wires_allocated gl <> 2 ^ 49 + 1 + 3 * 50 - 4.
Proof.
  split; [reflexivity|]. eexists.
  split; [apply AQFT_gate_list_binary64, ceil_log2_binary64_drops|].
  split; [reflexivity|]. split; [reflexivity|]. vm_compute; discriminate.
Qed.

(** C9, amended. For every [n >= 2] wires the gate list of the override
    allocates and frees the same number of auxiliary wires, so walking it
    leaves the number of wires held as it was; for [n <= 2^48] that number
    is [n + 3 * c - 4] with [c] the ceiling of the binary logarithm of
    [n]. *)
Theorem AQFT_wires_balanced {K : Type} (n : Z) (kwargs : K) :
  2 <= n ->
  exists gl : list GateItem,
    Binary64.AQFT_resource_decomp n kwargs = Ok gl /\
    wires_allocated gl = wires_freed gl /\
    (forall held : Z, walk_wires held gl = held) /\
    (n <= 2 ^ 48 ->
     exists c : Z,
       2 ^ (c - 1) < n <= 2 ^ c /\
       wires_allocated gl = n + 3 * c - 4 /\
       wires_freed gl = n + 3 * c - 4).
Proof.
  intros Hn. destruct (ceil_log2_binary64_ok n ltac:(lia)) as [c Hc].
  eexists. split; [by apply AQFT_gate_list_binary64|].
  split; [reflexivity|]. split.
  - intros held. unfold walk_wires; simpl. lia.
  - intros Hle. rewrite ceil_log2_binary64 in Hc by lia. injection Hc as <-.
    pose proof (Z.log2_up_spec n ltac:(lia)) as Hpow.
    rewrite <- Z.sub_1_r in Hpow.
    exists (Z.log2_up n). split; [exact Hpow|]. split; simpl; lia.
Qed.

Lemma AQFT_wires_balanced_witness :
  exists gl : list GateItem,
    Binary64.AQFT_resource_decomp 4 tt = Ok gl /\
    wires_allocated gl = wires_freed gl /\ walk_wires 0 gl = 0.
Proof.
  destruct (AQFT_wires_balanced 4 tt ltac:(lia)) as (gl & Hgl & Hb & Hw & _).
  exists gl. split; [exact Hgl|]. split; [exact Hb|apply Hw].
Defined.

(** ** The number of Trotter steps as the interpreter computes it *)

Section Rounding.

#[local] Open Scope R_scope.

Lemma rounds_refl (x : R) : rounds x x.
Proof.
  unfold rounds, unit_roundoff. rewrite Rminus_diag, Rabs_R0.
  apply Rmult_le_pos; [lra|apply Rabs_pos].
Qed.

Lemma rounds_bounds (x y : R) :
  0 < x -> rounds x y ->
  x * (1 - unit_roundoff) <= y <= x * (1 + unit_roundoff).
Proof.
  unfold rounds. intros Hx H. rewrite (Rabs_pos_eq x) in H by lra.
  unfold Rabs in H. destruct (Rcase_abs (y - x)); lra.
Qed.

Lemma sqrt_one_plus (e : R) : 0 <= e <= 1 -> sqrt (1 + e) <= 1 + e.
Proof.
  intros He. rewrite <- (sqrt_square (1 + e)) at 2 by lra.
  apply sqrt_le_1_alt. nra.
Qed.

Lemma sqrt_one_minus (e : R) : 0 <= e <= 1 -> 1 - e <= sqrt (1 - e).
Proof.
  intros He. rewrite <- (sqrt_square (1 - e)) at 1 by lra.
  apply sqrt_le_1_alt. nra.
Qed.

Lemma num_steps_binary64_bounds (norm req_error total_time : R) (n : Z) :
  0 < norm -> 0 < req_error -> 0 < total_time ->
  Binary64.num_steps norm req_error total_time n ->
  (1 <= n)%Z /\
  trotter_formula norm req_error total_time * (1 - / 281474976710656)
    <= IZR n /\
  IZR n < trotter_formula norm req_error total_time
            * (1 + / 281474976710656) + 1.
Proof.
  intros Hn He Ht (p & q & r & v & Hp & Hq & Hr & Hv & ->).
  unfold trotter_formula.
  replace (/ 281474976710656) with (16 * unit_roundoff)
    by (unfold unit_roundoff; lra).
  assert (0 < unit_roundoff < / 1000) as Hu by (unfold unit_roundoff; lra).
  set (P := Rpower total_time 1.5) in *.
  set (Q := norm / req_error) in *.
  assert (0 < P) as HP by (unfold P, Rpower; apply exp_pos).
  assert (0 < Q) as HQ.
  { unfold Q, Rdiv. apply Rmult_lt_0_compat; [exact Hn|].
    by apply Rinv_0_lt_compat. }
  pose proof (sqrt_lt_R0 Q HQ) as HsQ.
  apply rounds_bounds in Hp; [|exact HP].
  apply rounds_bounds in Hq; [|exact HQ].
  assert (0 < q) as Hq0 by nra.
  pose proof (sqrt_lt_R0 q Hq0) as Hsq0.
  rewrite Rpower_half in Hr by exact Hq0.
  apply rounds_bounds in Hr; [|exact Hsq0].
  assert (0 < p) as Hp0 by nra.
  assert (0 < r) as Hr0 by nra.
  apply rounds_bounds in Hv; [|by apply Rmult_lt_0_compat].
  set (u := unit_roundoff) in *.
  set (V := P * sqrt Q).
  assert (0 < V) as HV by (by apply Rmult_lt_0_compat).
  assert (sqrt Q * (1 - u) <= sqrt q <= sqrt Q * (1 + u)) as Hsq.
  { split.
    - apply Rle_trans with (sqrt Q * sqrt (1 - u)).
      + apply Rmult_le_compat_l; [lra|]. apply sqrt_one_minus. lra.
      + rewrite <- sqrt_mult by lra. apply sqrt_le_1_alt. lra.
    - apply Rle_trans with (sqrt Q * sqrt (1 + u)).
      + rewrite <- sqrt_mult by lra. apply sqrt_le_1_alt. lra.
      + apply Rmult_le_compat_l; [lra|]. apply sqrt_one_plus. lra. }
  assert (sqrt Q * ((1 - u) * (1 - u)) <= r
          <= sqrt Q * ((1 + u) * (1 + u))) as Hr2.
  { split.
    - apply Rle_trans with (sqrt q * (1 - u)); [|lra].
      rewrite <- Rmult_assoc. apply Rmult_le_compat_r; lra.
    - apply Rle_trans with (sqrt q * (1 + u)); [lra|].
      rewrite <- Rmult_assoc. apply Rmult_le_compat_r; lra. }
  assert (V * ((1 - u) * ((1 - u) * (1 - u))) <= p * r
          <= V * ((1 + u) * ((1 + u) * (1 + u)))) as Hpr2.
  { unfold V. split.
    - replace (P * sqrt Q * ((1 - u) * ((1 - u) * (1 - u))))
        with ((P * (1 - u)) * (sqrt Q * ((1 - u) * (1 - u)))) by ring.
      apply Rmult_le_compat; try lra; nra.
    - replace (P * sqrt Q * ((1 + u) * ((1 + u) * (1 + u))))
        with ((P * (1 + u)) * (sqrt Q * ((1 + u) * (1 + u)))) by ring.
      apply Rmult_le_compat; lra. }
  assert (V * (1 - 16 * u) <= v <= V * (1 + 16 * u)) as Hv2.
  { split.
    - apply Rle_trans with (V * ((1 - u) * ((1 - u) * (1 - u))) * (1 - u)).
      + rewrite Rmult_assoc. apply Rmult_le_compat_l; [lra|]. nra.
      + apply Rle_trans with (p * r * (1 - u)); [|lra].
        apply Rmult_le_compat_r; lra.
    - apply Rle_trans with (V * ((1 + u) * ((1 + u) * (1 + u))) * (1 + u)).
      + apply Rle_trans with (p * r * (1 + u)); [lra|].
        apply Rmult_le_compat_r; lra.
      + rewrite Rmult_assoc. apply Rmult_le_compat_l; [lra|]. nra. }
  destruct (ceil_spec v) as [Hlo Hhi].
  assert (0 < v) as Hv0 by nra.
  split; [|split].
  - assert (IZR 0 < IZR (ceil v)) as H by (simpl; lra).
    apply lt_IZR in H. lia.
  - lra.
  - lra.
Qed.
Lemma num_steps_exact_admissible (norm req_error total_time : R) :
  0 < norm -> 0 < req_error -> 0 < total_time ->
  exists n : Z,
    num_steps norm req_error total_time = Ok n /\
    Binary64.num_steps norm req_error total_time n.
Proof.
  intros Hn He Ht. eexists. split; [by apply num_steps_pos|].
  unfold trotter_formula.
  assert (0 < norm / req_error) as Hq.
  { unfold Rdiv. apply Rmult_lt_0_compat; [exact Hn|]. by apply Rinv_0_lt_compat. }
  exists (Rpower total_time 1.5), (norm / req_error),
         (sqrt (norm / req_error)),
         (Rpower total_time 1.5 * sqrt (norm / req_error)).
  split; [apply rounds_refl|]. split; [apply rounds_refl|].
  split; [rewrite Rpower_half by exact Hq; apply rounds_refl|].
  split; [apply rounds_refl|reflexivity].
Qed.

(** The rounding can push the count above the ceiling of the formula: for
    norm 2, tolerance 1 and time 2 the formula is 4, and a power that is one
    unit in the last place too large gives 5. *)
Lemma num_steps_may_overshoot :
  trotter_formula 2 1 2 = 4 /\ Binary64.num_steps 2 1 2 5.
Proof.
  assert (Rpower 2 1.5 = 2 * sqrt 2) as Hp.
  { replace 1.5 with (1 + 0.5) by lra.
    rewrite Rpower_plus, Rpower_1, Rpower_half by lra. reflexivity. }
  pose proof (sqrt_sqrt 2 ltac:(lra)) as Hs.
  assert (0 < sqrt 2) as Hs0 by (apply sqrt_lt_R0; lra).
  assert (2 / 1 = 2) as Hq by lra.
  split.
  - unfold trotter_formula. rewrite Hp, Hq. nra.
  - exists (Rpower 2 1.5 * (1 + unit_roundoff)), 2, (sqrt 2),
           (Rpower 2 1.5 * (1 + unit_roundoff) * sqrt 2).
    assert (0 < unit_roundoff < / 1000) as Hu by (unfold unit_roundoff; lra).
    split.
    { unfold rounds. rewrite Hp.
      replace (2 * sqrt 2 * (1 + unit_roundoff) - 2 * sqrt 2)
        with (unit_roundoff * (2 * sqrt 2)) by ring.
      rewrite Rabs_mult, (Rabs_pos_eq unit_roundoff) by lra. lra. }
    split; [rewrite Hq; apply rounds_refl|].
    split; [rewrite Rpower_half by lra; apply rounds_refl|].
    split; [apply rounds_refl|].
    symmetry. apply ceil_unique. rewrite Hp. simpl. nra.
Qed.

Lemma sqrt_2_tight : 1.4 < sqrt 2 < 1.5.
Proof.
  split.
  - rewrite <- (sqrt_square 1.4) by lra. apply sqrt_lt_1_alt. lra.
  - rewrite <- (sqrt_square 1.5) by lra. apply sqrt_lt_1_alt. lra.
Qed.

End Rounding.

(** C1, as stated, fails: for norm 2, tolerance 1 and time 1 the formula
    gives the square root of 2, and [num_steps] returns 2, whatever the
    rounding of the float operations. *)
Lemma num_steps_not_formula :
  num_steps 2 1 1 = Ok 2 /\
  (forall n : Z, Binary64.num_steps 2 1 1 n -> n = 2) /\
  IZR 2 <> trotter_formula 2 1 1.
Proof.
  pose proof sqrt_2_tight as [Hlo Hhi].
  split; [|split].
  - rewrite num_steps_pos by lra. f_equal.
    apply ceil_unique. rewrite trotter_formula_2_1_1. lra.
  - intros n Hn.
    apply num_steps_binary64_bounds in Hn; [|lra..].
    rewrite trotter_formula_2_1_1 in Hn. destruct Hn as (_ & Hge & Hlt).
    assert (IZR 1 < IZR n)%R as H1 by (simpl; nra).
    assert (IZR n < IZR 3)%R as H3 by (simpl; nra).
    apply lt_IZR in H1, H3. lia.
  - rewrite trotter_formula_2_1_1. lra.
Qed.

(** C1, amended. For norm, tolerance and time with magnitudes between
    [10^-30] and [10^30], [num_steps] returns an integer [n >= 1]: the
    ceiling of the float value of [t^1.5 * sqrt(norm / req_error)], which is
    within the relative error [2^-48] of the formula.  So
    [v * (1 - 2^-48) <= n < v * (1 + 2^-48) + 1] for the value [v] of the
    formula; the ceiling of [v] itself, which exact arithmetic gives, is one
    of the integers the rounding allows. *)
Theorem num_steps_near_formula (norm req_error total_time : R) :
  in_range norm -> in_range req_error -> in_range total_time ->
  (exists n : Z,
     num_steps norm req_error total_time = Ok n /\
     Binary64.num_steps norm req_error total_time n) /\
  (forall n : Z,
     Binary64.num_steps norm req_error total_time n ->
     1 <= n /\
     (trotter_formula norm req_error total_time * (1 - / 281474976710656)
        <= IZR n)%R /\
     (IZR n < trotter_formula norm req_error total_time
                * (1 + / 281474976710656) + 1)%R).
Proof.
  unfold in_range. intros Hn He Ht. split.
  - apply num_steps_exact_admissible; lra.
  - intros n Hb. apply num_steps_binary64_bounds; [lra..|exact Hb].
Qed.

Lemma num_steps_near_formula_witness :
  exists n : Z,
    num_steps 2 1 1 = Ok n /\ Binary64.num_steps 2 1 1 n /\ 1 <= n.
Proof.
  destruct (num_steps_near_formula 2 1 1) as [(n & Hn & Hb) Hall];
    [unfold in_range; lra..|].
  exists n. split; [exact Hn|]. split; [exact Hb|]. apply (Hall n Hb).
Defined.



(** Outside that domain the call raises. *)
Lemma num_steps_raises (norm req_error total_time : R) :
  (num_steps norm 0 total_time = Raise ZeroDivisionError) /\
  ((0 < req_error)%R -> (norm < 0)%R ->
   num_steps norm req_error total_time = Raise TypeError).
Proof.
  split.
  - unfold num_steps. destruct (Req_dec_T 0 0) as [_|H]; [reflexivity|lra].
  - intros He Hn. unfold num_steps.
    destruct (Req_dec_T req_error 0) as [H0|_]; [lra|].
    rewrite (float_pow_neg (norm / req_error)).
    + by destruct (float_pow total_time 1.5).
    + assert (0 < / req_error)%R as Hi by (by apply Rinv_0_lt_compat).
      unfold Rdiv. nra.
Qed.

(** ** The guarded cells *)

Lemma num_steps_py_float (x : R) :
  (0 <= x)%R ->
  exists n : Z, num_steps_py (PyFloat x) req_error total_time = Ok n.
Proof.
  intros Hx. eexists. simpl. apply num_steps_nonneg.
  - exact Hx.
  - unfold req_error. lra.
  - unfold total_time. lra.
Qed.

(** An absent OG norm is handled: nothing is computed, nothing raises,
    whatever the mode-based norm is. *)
Lemma run_cells_without_OG (norm_mode : PyVal)
  (res_initial step_OG_res step_mode_res : Resources) :
  run_cells PyNone norm_mode res_initial step_OG_res step_mode_res =
    Ok no_globals.
Proof. reflexivity. Qed.

(** With both norms present the three cells bind all four names. *)
Lemma run_cells_both (x y : R)
  (res_initial step_OG_res step_mode_res : Resources) :
  (0 <= x)%R -> (0 <= y)%R ->
  exists n_OG n_mode : Z,
    num_steps x req_error total_time = Ok n_OG /\
    num_steps y req_error total_time = Ok n_mode /\
    run_cells (PyFloat x) (PyFloat y) res_initial step_OG_res step_mode_res =
      Ok (mkGlobals (Some n_OG) (Some n_mode)
            (Some (res_initial ⊕ step_OG_res ⊙ n_OG)%res)
            (Some (res_initial ⊕ step_mode_res ⊙ n_mode)%res)).
Proof.
  intros Hx Hy.
  destruct (num_steps_py_float x Hx) as [n Hn], (num_steps_py_float y Hy) as [m Hm].
  exists n, m. simpl in Hn, Hm. split; [exact Hn|]. split; [exact Hm|].
  unfold run_cells, steps_cell. simpl. rewrite Hn. simpl. rewrite Hm. reflexivity.
Qed.

(** C6. With the OG norm present and the mode-based norm absent, the
    step-count cell passes [None] to [num_steps] and raises a [TypeError]:
    the second guard tests [norm_OG], not [norm_mode]. *)
Theorem steps_cell_None_mode (x : R) (g : Globals)
  (res_initial step_OG_res step_mode_res : Resources) :
  (0 <= x)%R ->
  steps_cell (PyFloat x) PyNone g = Raise TypeError /\
  run_cells (PyFloat x) PyNone res_initial step_OG_res step_mode_res =
    Raise TypeError.
Proof.
  intros Hx. destruct (num_steps_py_float x Hx) as [n Hn]. simpl in Hn.
  unfold run_cells, steps_cell. simpl. rewrite Hn. by simpl.
Qed.

Lemma steps_cell_None_mode_witness :
  steps_cell (PyFloat 1) PyNone no_globals = Raise TypeError.
Proof.
  apply (steps_cell_None_mode 1 no_globals zero zero zero). lra.
Defined.

(** ** Circuit templates *)

Section Templates.

(** The Toffoli cost the estimation library gives each operation, with the
    cost rules that matter here as assumptions: a controlled adder on [n]
    bits, the out-of-place square and the multiplier with their adjoints,
    the QFT through the override above, and the identity. *)
Variable toff : Op -> Z.

Hypothesis toff_adder : forall n : Z,
  toff (ResourceControlled (ResourceSemiAdder n) 1 0) = 2 * (n - 1).
Hypothesis toff_square : forall k : Z,
  toff (ResourceOutOfPlaceSquare k) = (k - 1) ^ 2 /\
  toff (ResourceAdjoint (ResourceOutOfPlaceSquare k)) = (k - 1) ^ 2.
Hypothesis toff_multiplier : forall a b : Z,
  toff (ResourceOutMultiplier a b) = 2 * a * b - Z.max a b /\
  toff (ResourceAdjoint (ResourceOutMultiplier a b)) = 2 * a * b - Z.max a b.
Hypothesis toff_QFT : forall (n : Z) (gl : list GateItem),
  AQFT_resource_decomp n tt = Ok gl ->
  toff (ResourceQFT n) = gates_named "Toffoli" gl /\
  toff (ResourceAdjoint (ResourceQFT n)) = gates_named "Toffoli" gl.
Hypothesis toff_identity : toff ResourceIdentity = 0.

Lemma circuit_toffoli_app (l1 l2 : list Op) :
  circuit_toffoli toff (l1 ++ l2) =
    circuit_toffoli toff l1 + circuit_toffoli toff l2.
Proof.
  induction l1 as [|op l1 IH]; simpl; [reflexivity|]. rewrite IH. lia.
Qed.

Lemma circuit_toffoli_repeat {A : Type} (f : A -> list Op) (c : Z)
  (l : list A) :
  (forall x, circuit_toffoli toff (f x) = c) ->
  circuit_toffoli toff (flat_map f l) = Z.of_nat (length l) * c.
Proof.
  intros Hf. induction l as [|x l IH]; [simpl; lia|].
  change (flat_map f (x :: l)) with (f x ++ flat_map f l).
  rewrite circuit_toffoli_app, Hf, IH. simpl length. lia.
Qed.

Lemma range_length (n : Z) : 0 <= n -> Z.of_nat (length (range n)) = n.
Proof. intros Hn. unfold range. rewrite length_map, length_seq. lia. Qed.

Lemma circuit_toffoli_const (op : Op) (c n : Z) :
  0 <= n -> toff op = c ->
  circuit_toffoli toff (map (fun _ => op) (range n)) = n * c.
Proof.
  intros Hn Hc. rewrite <- (range_length n Hn) at 2.
  induction (range n) as [|x l IH]; [simpl; lia|].
  change (circuit_toffoli toff (map (fun _ => op) (x :: l)))
    with (toff op + circuit_toffoli toff (map (fun _ => op) l)).
  rewrite IH, Hc. simpl length. lia.
Qed.

Lemma phase_adders_20_4 : circuit_toffoli toff (phase_adders 20 4) = 140.
Proof.
  unfold phase_adders, range. simpl. rewrite !toff_adder. reflexivity.
Qed.

Lemma phase_adders_20_8 : circuit_toffoli toff (phase_adders 20 8) = 248.
Proof.
  unfold phase_adders, range. simpl. rewrite !toff_adder. reflexivity.
Qed.

(** For [k = 4] and [b = 20] the Toffoli counts of the four templates are
    fixed up to the cost [q] of loading and unloading the QROM and the
    number of modes [M]. *)
Lemma templates_toffoli (N M q : Z) :
  0 <= M ->
  toff (ResourceQROM N 20 false)
    + toff (ResourceAdjoint (ResourceQROM N 20 false)) = q ->
  circuit_toffoli toff (Q_cir 20 N 4) = q + 140 /\
  circuit_toffoli toff (Qsquared_cir 20 N 4) = q + 266 /\
  circuit_toffoli toff (QrQs_cir 20 N 4) = q + 304 /\
  circuit_toffoli toff (kinetic_cir 20 M 4) = 282 * M.
Proof.
  intros HM Hq.
  destruct (toff_square 4) as [Hs Hsa], (toff_multiplier 4 4) as [Hm Hma].
  destruct (toff_QFT 4 _ eq_refl) as [Hf Hfa].
  change (gates_named _ _) with 8 in Hf, Hfa.
  unfold Q_cir, Qsquared_cir, QrQs_cir, kinetic_cir.
  change (2 * 4) with 8.
  repeat split.
  - rewrite !circuit_toffoli_app, phase_adders_20_4. simpl.
    rewrite toff_identity. lia.
  - rewrite !circuit_toffoli_app, phase_adders_20_8. simpl.
    rewrite toff_identity, Hs, Hsa. lia.
  - rewrite !circuit_toffoli_app, phase_adders_20_8. simpl.
    rewrite toff_identity, Hm, Hma. lia.
  - rewrite !circuit_toffoli_app.
    rewrite (circuit_toffoli_repeat _ 266).
    2:{ intros _. rewrite !circuit_toffoli_app, phase_adders_20_8. simpl.
        rewrite Hs, Hsa. lia. }
    rewrite range_length by exact HM.
    rewrite (circuit_toffoli_const _ 8 M HM Hf).
    rewrite (circuit_toffoli_const _ 8 M HM Hfa).
    simpl. rewrite toff_identity. lia.
Qed.

(** The counts the notebook prints are the ones for [q = 6] and 19 modes. *)
Lemma templates_toffoli_printed (N M : Z) :
  0 <= M ->
  toff (ResourceQROM N 20 false)
    + toff (ResourceAdjoint (ResourceQROM N 20 false)) = 6 ->
  circuit_toffoli toff (Q_cir 20 N 4) = 146 /\
  circuit_toffoli toff (Qsquared_cir 20 N 4) = 272 /\
  circuit_toffoli toff (QrQs_cir 20 N 4) = 310 /\
  (circuit_toffoli toff (kinetic_cir 20 M 4) = 5358 <-> M = 19).
Proof.
  intros HM Hq.
  destruct (templates_toffoli N M 6 HM Hq) as (H1 & H2 & H3 & H4).
  rewrite H1, H2, H3, H4. repeat split; lia.
Qed.

End Templates.

(** The assumptions hold of [reference_toff]; with three Toffoli gates per
    QROM pass and 19 modes it gives the printed counts. *)
Lemma reference_toff_printed :
  circuit_toffoli (reference_toff 3) (Q_cir 20 5 4) = 146 /\
  circuit_toffoli (reference_toff 3) (Qsquared_cir 20 5 4) = 272 /\
  circuit_toffoli (reference_toff 3) (QrQs_cir 20 5 4) = 310 /\
  circuit_toffoli (reference_toff 3) (kinetic_cir 20 19 4) = 5358.
Proof.
  assert (forall (n : Z) (gl : list GateItem),
            AQFT_resource_decomp n tt = Ok gl ->
            reference_toff 3 (ResourceQFT n) = gates_named "Toffoli" gl /\
            reference_toff 3 (ResourceAdjoint (ResourceQFT n)) =
              gates_named "Toffoli" gl) as Hqft.
  { intros n gl Hgl. unfold reference_toff. rewrite Hgl.
    unfold AQFT_resource_decomp in Hgl.
    destruct (ceil_log2 n) as [c|e]; simpl in Hgl; [|discriminate].
    injection Hgl as <-. split; reflexivity. }
  destruct (templates_toffoli_printed (reference_toff 3)
              (fun n => eq_refl) (fun k => conj eq_refl eq_refl)
              (fun a b => conj eq_refl eq_refl) Hqft eq_refl 5 19)
    as (H1 & H2 & H3 & H4); [lia|reflexivity|].
  split; [exact H1|]. split; [exact H2|]. split; [exact H3|]. by apply H4.
Qed.

(** * Further properties *)

(** ** The QFT resource override outside the claimed range *)

(** A non-positive wire count is rejected by [math.log2]; from one wire on
    a gate list is returned, and its Toffoli count and wire allocation are
    non-negative exactly from two wires on (one wire gives [-2] Toffoli gates
    and [-3] wires). *)
Theorem AQFT_domain_and_sign {K : Type} (n : Z) (kwargs : K) :
  (n <= 0 -> AQFT_resource_decomp n kwargs = Raise ValueError) /\
  (1 <= n ->
   exists gl : list GateItem,
     AQFT_resource_decomp n kwargs = Ok gl /\
     (0 <= gates_named "Toffoli" gl /\ 0 <= wires_allocated gl <-> 2 <= n)).
Proof.
  split.
  - intros Hn. unfold AQFT_resource_decomp, ceil_log2.
    destruct (Z.leb_spec n 0); [reflexivity|lia].
  - intros Hn. eexists. split.
    + apply AQFT_gate_list. unfold ceil_log2.
      destruct (Z.leb_spec n 0); [lia|reflexivity].
    + simpl. destruct (Z.eq_dec n 1) as [->|Hne].
      * change (Z.log2_up 1) with 0. lia.
      * pose proof (Z.log2_up_pos n ltac:(lia)). split; [lia|]. intros _. nia.
Qed.

Lemma AQFT_domain_and_sign_witness :
  AQFT_resource_decomp 0 tt = Raise ValueError /\
  exists gl : list GateItem,
    AQFT_resource_decomp 1 tt = Ok gl /\
    ~ (0 <= gates_named "Toffoli" gl /\ 0 <= wires_allocated gl).
Proof.
  destruct (AQFT_domain_and_sign 0 tt) as [H0 _].
  destruct (AQFT_domain_and_sign 1 tt) as [_ H1].
  split; [apply H0; lia|].
  destruct (H1 ltac:(lia)) as (gl & Hgl & Hiff).
  exists gl. split; [exact Hgl|]. intros H. apply Hiff in H. lia.
Defined.

(** More wires never cost fewer Toffoli gates nor fewer auxiliary wires. *)
Theorem AQFT_monotone {K : Type} (n m : Z) (kwargs : K) :
  1 <= n <= m ->
  exists gl_n gl_m : list GateItem,
    AQFT_resource_decomp n kwargs = Ok gl_n /\
    AQFT_resource_decomp m kwargs = Ok gl_m /\
    gates_named "Toffoli" gl_n <= gates_named "Toffoli" gl_m /\
    wires_allocated gl_n <= wires_allocated gl_m.
Proof.
  intros [Hn Hnm].
  assert (forall x, 1 <= x -> ceil_log2 x = Ok (Z.log2_up x)) as Hc.
  { intros x Hx. unfold ceil_log2. destruct (Z.leb_spec x 0); [lia|reflexivity]. }
  do 2 eexists.
  split; [apply AQFT_gate_list, Hc; lia|].
  split; [apply AQFT_gate_list, Hc; lia|].
  pose proof (Z.log2_up_le_mono n m Hnm) as Hmono.
  pose proof (Z.log2_up_nonneg n) as Hnn.
  simpl. split; [|lia].
  destruct (Z.eq_dec n 1) as [->|Hne].
  - change (Z.log2_up 1) with 0.
    destruct (Z.eq_dec m 1) as [->|Hme]; [reflexivity|].
    pose proof (Z.log2_up_pos m ltac:(lia)). nia.
  - pose proof (Z.log2_up_pos n ltac:(lia)). nia.
Qed.

Lemma AQFT_monotone_witness :
  exists gl_n gl_m : list GateItem,
    AQFT_resource_decomp 4 tt = Ok gl_n /\
    AQFT_resource_decomp 5 tt = Ok gl_m /\
    gates_named "Toffoli" gl_n <= gates_named "Toffoli" gl_m /\
    wires_allocated gl_n <= wires_allocated gl_m.
Proof. apply (AQFT_monotone 4 5 tt). lia. Defined.

(** On a register of [2 ^ c] wires the counts are [2 ^ (c + 1) * (c - 1)]
    Toffoli gates and [2 ^ c + 3 * c - 4] auxiliary wires. *)
Theorem AQFT_power_of_two {K : Type} (c : Z) (kwargs : K) :
  0 <= c ->
  AQFT_resource_decomp (2 ^ c) kwargs =
    Ok [ AllocWires (2 ^ c + 3 * c - 4);
         GateCount "Toffoli" (2 ^ (c + 1) * (c - 1));
         FreeWires (2 ^ c + 3 * c - 4) ].
Proof.
  intros Hc. rewrite (AQFT_gate_list (2 ^ c) c).
  - rewrite Z.pow_add_r by lia. do 3 f_equal. f_equal. lia.
  - unfold ceil_log2. pose proof (Z.pow_pos_nonneg 2 c ltac:(lia) Hc).
    destruct (Z.leb_spec (2 ^ c) 0); [lia|]. by rewrite Z.log2_up_pow2.
Qed.

Lemma AQFT_power_of_two_witness :
  AQFT_resource_decomp (2 ^ 3) tt =
    Ok [AllocWires 13; GateCount "Toffoli" 32; FreeWires 13].
Proof. apply (AQFT_power_of_two 3 tt). lia. Defined.

(** With the float logarithm the override has the same domain, a
    [ValueError] on a non-positive wire count and a gate list from one wire
    on, however many wires there are ([math.log2] takes integers beyond the
    float range); up to [2^48] wires it returns what exact arithmetic
    gives. *)
Theorem AQFT_binary64_outcome {K : Type} (n : Z) (kwargs : K) :
  (n <= 0 -> Binary64.AQFT_resource_decomp n kwargs = Raise ValueError) /\
  (1 <= n ->
   exists gl : list GateItem, Binary64.AQFT_resource_decomp n kwargs = Ok gl) /\
  (1 <= n <= 2 ^ 48 ->
   Binary64.AQFT_resource_decomp n kwargs = AQFT_resource_decomp n kwargs).
Proof.
  split; [|split].
  - intros Hn. unfold Binary64.AQFT_resource_decomp, Binary64.ceil_log2, math_log2.
    destruct (Z.leb_spec n 0) as [_|]; [reflexivity|lia].
  - intros Hn. destruct (ceil_log2_binary64_ok n Hn) as [c Hc].
    eexists. by apply AQFT_gate_list_binary64.
  - apply AQFT_binary64_exact.
Qed.

Lemma AQFT_binary64_outcome_witness :
  Binary64.AQFT_resource_decomp 0 tt = Raise ValueError /\
  Binary64.AQFT_resource_decomp 4 tt = AQFT_resource_decomp 4 tt.
Proof.
  split.
  - apply (proj1 (AQFT_binary64_outcome 0 tt)). lia.
  - apply (proj2 (proj2 (AQFT_binary64_outcome 4 tt))). lia.
Defined.

(** ** Loading the Hamiltonian: failures and the electronic register *)

Lemma ceil_log2_ok (n : Z) : 1 <= n -> ceil_log2 n = Ok (Z.log2_up n).
Proof.
  intros Hn. unfold ceil_log2. destruct (Z.leb_spec n 0); [lia|reflexivity].
Qed.

Lemma ceil_log2_raises (n : Z) : n <= 0 -> ceil_log2 n = Raise ValueError.
Proof.
  intros Hn. unfold ceil_log2. destruct (Z.leb_spec n 0); [reflexivity|lia].
Qed.

(** What makes the loading cell raise, in the order the cell meets it: a
    missing entry 0 or 1 is a [KeyError], an [alphas] with fewer than three
    axes an [IndexError], an empty first axis a [ValueError] (from
    [math.log2(0)]).  Whether entry 2 exists plays no part. *)
Theorem load_cell_raises (omegas0 : list R) (couplings : gmap Z ndarray) :
  (couplings !! 0 = None -> load_cell omegas0 couplings = Raise KeyError) /\
  (is_Some (couplings !! 0) -> couplings !! 1 = None ->
   load_cell omegas0 couplings = Raise KeyError) /\
  (forall al : ndarray,
     is_Some (couplings !! 0) -> couplings !! 1 = Some al ->
     (length (shape al) < 3)%nat ->
     load_cell omegas0 couplings = Raise IndexError) /\
  (forall (al : ndarray) (x m : nat) (rest : list nat),
     is_Some (couplings !! 0) -> couplings !! 1 = Some al ->
     shape al = 0%nat :: x :: m :: rest ->
     load_cell omegas0 couplings = Raise ValueError).
Proof.
  unfold load_cell, getitem, index. repeat split.
  - intros ->. reflexivity.
  - intros [lam ->] ->. reflexivity.
  - intros al [lam ->] -> Hlen. simpl.
    destruct (shape al) as [|n [|x [|m rest]]]; simpl in *; try reflexivity. lia.
  - intros al x m rest [lam ->] -> Hs. simpl. rewrite Hs. reflexivity.
Qed.

Lemma load_cell_raises_witness :
  load_cell [] ∅ = Raise KeyError /\
  load_cell [] {[ 0 := zeros [2; 2]%nat ]} = Raise KeyError /\
  load_cell [] {[ 0 := zeros [2; 2]%nat; 1 := zeros [2; 2]%nat ]} =
    Raise IndexError /\
  load_cell [] {[ 0 := zeros [2; 2]%nat; 1 := zeros [0; 0; 3]%nat ]} =
    Raise ValueError.
Proof.
  split; [|split; [|split]].
  - destruct (load_cell_raises [] (∅ : gmap Z ndarray)) as (H & _).
    apply H. reflexivity.
  - destruct (load_cell_raises [] ({[ 0 := zeros [2; 2]%nat ]} : gmap Z ndarray))
      as (_ & H & _).
    apply H; [eexists|]; reflexivity.
  - destruct (load_cell_raises []
               ({[ 0 := zeros [2; 2]%nat; 1 := zeros [2; 2]%nat ]} : gmap Z ndarray))
      as (_ & _ & H & _).
    apply (H (zeros [2; 2]%nat)); [eexists; reflexivity|reflexivity|simpl; lia].
  - destruct (load_cell_raises []
               ({[ 0 := zeros [2; 2]%nat; 1 := zeros [0; 0; 3]%nat ]} : gmap Z ndarray))
      as (_ & _ & _ & H).
    apply (H (zeros [0; 0; 3]%nat) 0%nat 3%nat []);
      [eexists; reflexivity|reflexivity|reflexivity].
Defined.

Lemma load_cell_ok (omegas0 : list R) (couplings : gmap Z ndarray)
  (lam al : ndarray) (n x m : nat) (rest : list nat) :
  couplings !! 0 = Some lam -> couplings !! 1 = Some al ->
  shape al = n :: x :: m :: rest -> (1 <= n)%nat ->
  load_cell omegas0 couplings =
    Ok (mkHam (bool_decide (is_Some (couplings !! 2))) omegas0 lam al n m
          (Z.log2_up (Z.of_nat n))
          (default (zeros [n; n; m; m]) (couplings !! 2))).
Proof.
  intros H0 H1 Hs Hn. unfold load_cell, getitem, index.
  rewrite H0, H1. simpl. rewrite Hs. simpl.
  rewrite ceil_log2_ok by lia. simpl.
  destruct (couplings !! 2) as [be|]; reflexivity.
Qed.

Lemma load_cell_inv (omegas0 : list R) (couplings : gmap Z ndarray)
  (h : Hamiltonian) :
  load_cell omegas0 couplings = Ok h ->
  exists (lam al : ndarray) (n x m : nat) (rest : list nat),
    couplings !! 0 = Some lam /\ couplings !! 1 = Some al /\
    shape al = n :: x :: m :: rest /\ (1 <= n)%nat.
Proof.
  intros Hh. unfold load_cell, getitem, index in Hh.
  destruct (couplings !! 0) as [lam|] eqn:H0; [|discriminate].
  destruct (couplings !! 1) as [al|] eqn:H1; [|discriminate].
  simpl in Hh.
  destruct (shape al) as [|n [|x [|m rest]]] eqn:Hs; try discriminate.
  simpl in Hh. do 6 eexists.
  split; [reflexivity|]. split; [reflexivity|]. split; [exact Hs|].
  destruct n as [|n]; [discriminate|lia].
Qed.

(** Loading succeeds exactly when entries 0 and 1 exist and [alphas] has at
    least three axes, the first of them non-empty. *)
Theorem load_cell_ok_iff (omegas0 : list R) (couplings : gmap Z ndarray) :
  (exists h : Hamiltonian, load_cell omegas0 couplings = Ok h) <->
  (exists (lam al : ndarray) (n x m : nat) (rest : list nat),
     couplings !! 0 = Some lam /\ couplings !! 1 = Some al /\
     shape al = n :: x :: m :: rest /\ (1 <= n)%nat).
Proof.
  split.
  - intros [h Hh]. by eapply load_cell_inv.
  - intros (lam & al & n & x & m & rest & H0 & H1 & Hs & Hn).
    eexists. by eapply load_cell_ok.
Qed.

(** After a successful load of at most [2^48] electronic states, [N] and
    [M] are the first and third axis of [alphas], and [log_N] is the
    smallest register size whose [2 ^ log_N] basis states cover the [N]
    electronic states; it is what the float logarithm gives. *)
Theorem load_cell_register (omegas0 : list R) (couplings : gmap Z ndarray)
  (h : Hamiltonian) :
  load_cell omegas0 couplings = Ok h ->
  Z.of_nat (N h) <= 2 ^ 48 ->
  Binary64.ceil_log2 (Z.of_nat (N h)) = Ok (log_N h) /\
  couplings !! 1 = Some (alphas h) /\
  shape (alphas h) !! 0%nat = Some (N h) /\
  shape (alphas h) !! 2%nat = Some (M h) /\
  (1 <= N h)%nat /\
  0 <= log_N h /\
  Z.of_nat (N h) <= 2 ^ log_N h /\
  (forall c : Z, 0 <= c -> Z.of_nat (N h) <= 2 ^ c -> log_N h <= c).
Proof.
  intros Hh Hb.
  destruct (load_cell_inv omegas0 couplings h Hh)
    as (lam & al & n & x & m & rest & H0 & H1 & Hs & Hn).
  rewrite (load_cell_ok _ _ _ _ _ _ _ _ H0 H1 Hs Hn) in Hh.
  injection Hh as <-. cbn [N log_N alphas M] in Hb |- *. rewrite Hs. simpl.
  repeat split; try done.
  - apply ceil_log2_binary64. lia.
  - apply Z.log2_up_nonneg.
  - apply Z.log2_up_le_pow2; lia.
  - intros c Hc Hle. apply Z.log2_up_le_pow2; lia.
Qed.

Lemma load_cell_register_witness :
  exists h : Hamiltonian,
    load_cell [] sample_couplings = Ok h /\
    N h = 2%nat /\ M h = 3%nat /\ Z.of_nat (N h) <= 2 ^ log_N h.
Proof.
  eexists. split; [reflexivity|].
  split; [reflexivity|]. split; [reflexivity|].
  apply (load_cell_register [] sample_couplings); [reflexivity|simpl; lia].
Defined.

(** ** The list of fragment estimates *)

(** The loop stores one estimate per fragment, the kinetic one first, and
    never looks at the last fragment: its place is taken by [res_kinetic].
    Without fragments the list still holds [res_kinetic]. *)
Theorem res_list_skips_last {Fragment : Type}
  (count_nonzero_Q_terms : Fragment -> Z * Z * Z)
  (res_kinetic res_Q res_Qsquared res_QrQs : Resources)
  (fragments : list Fragment) (last : Fragment) :
  res_list count_nonzero_Q_terms res_kinetic res_Q res_Qsquared res_QrQs
    (fragments ++ [last]) =
    res_kinetic ::
    map (fun frag => res_frag res_Q res_Qsquared res_QrQs
                       (count_nonzero_Q_terms frag)) fragments /\
  length (res_list count_nonzero_Q_terms res_kinetic res_Q res_Qsquared
            res_QrQs (fragments ++ [last])) = length (fragments ++ [last]) /\
  res_list count_nonzero_Q_terms res_kinetic res_Q res_Qsquared res_QrQs
    [] = [res_kinetic].
Proof.
  assert (take (length (fragments ++ [last]) - 1) (fragments ++ [last])
          = fragments) as Htake.
  { rewrite length_app. simpl.
    replace (length fragments + 1 - 1)%nat with (length fragments) by lia.
    by rewrite take_app_length. }
  unfold res_list. rewrite Htake. split; [reflexivity|]. split; [|reflexivity].
  simpl. rewrite length_map, length_app. simpl. lia.
Qed.

(** ** The second-order Trotter step: further properties *)

Section StepMore.

#[local] Open Scope res_scope.

Lemma sorted_reverse_length (l : list Resources) :
  length (sorted_reverse toffoli l) = length l.
Proof. apply Permutation_length, sorted_reverse_perm. Qed.

Lemma toffoli_weighted_twice (init : Resources) (xs : list Resources) :
  toffoli (weighted_sum init (map (fun r => (2, r)) xs)) =
    toffoli init + 2 * sum_toffoli xs.
Proof.
  revert init. induction xs as [|x xs IH]; intros init; simpl; [lia|].
  rewrite IH, toffoli_add, toffoli_mul. lia.
Qed.

Lemma sum_toffoli_perm (l l' : list Resources) :
  Permutation l l' -> sum_toffoli l = sum_toffoli l'.
Proof.
  induction 1; simpl; try lia.
Qed.

Lemma sum_toffoli_filter (P : Resources -> Prop) `{!forall r, Decision (P r)}
  (xs : list Resources) :
  (forall r, r ∈ xs -> 0 <= toffoli r) ->
  0 <= sum_toffoli (filter P xs) <= sum_toffoli xs.
Proof.
  induction xs as [|x xs IH]; intros Hpos; [simpl; lia|].
  assert (0 <= toffoli x) by (apply Hpos; by left).
  assert (0 <= sum_toffoli (filter P xs) <= sum_toffoli xs) as IH'
    by (apply IH; intros r Hr; apply Hpos; by right).
  rewrite filter_cons. destruct (decide (P x)); simpl; lia.
Qed.

(** The step in terms of the sorted list. *)
Lemma step_res_sorted (l : list Resources) (e0 e1 : Resources)
  (rest : list Resources) :
  sorted_reverse toffoli l = e0 :: e1 :: rest ->
  step_res l =
    Ok (weighted_sum (e0 ⊕ e1)
          (map (fun r => (2, r)) (filter (fun r => r ∉ [e0; e1]) l))) /\
  Permutation (filter (fun r => r ∉ [e0; e1]) l)
              (filter (fun r => r ∉ [e0; e1]) rest).
Proof.
  intros Hs. split.
  - unfold step_res. rewrite Hs. simpl. by rewrite step_add_fold.
  - pose proof (sorted_reverse_perm toffoli l) as Hperm. rewrite Hs in Hperm.
    rewrite <- Hperm.
    rewrite !filter_cons.
    destruct (decide (e0 ∉ [e0; e1])) as [H|_]; [exfalso; apply H; by left|].
    destruct (decide (e1 ∉ [e0; e1])) as [H|_];
      [exfalso; apply H; right; by left|].
    reflexivity.
Qed.

End StepMore.

(** The step cell returns an estimate on two estimates or more; on fewer
    it raises, and an [IndexError] is all it ever raises. *)
Theorem step_res_raises_iff (l : list Resources) :
  (step_res l = Raise IndexError <-> (length l < 2)%nat) /\
  ((2 <= length l)%nat -> exists r : Resources, step_res l = Ok r) /\
  (forall e : exn, step_res l = Raise e -> e = IndexError).
Proof.
  pose proof (sorted_reverse_length l) as Hlen.
  unfold step_res.
  destruct (sorted_reverse toffoli l) as [|e0 [|e1 rest]]; simpl in *.
  - split; [split; [lia|reflexivity]|]. split; [lia|]. by intros e [= <-].
  - split; [split; [lia|reflexivity]|]. split; [lia|]. by intros e [= <-].
  - split; [split; [discriminate|lia]|]. split; [eauto|discriminate].
Qed.

Lemma step_res_raises_iff_witness :
  step_res [sample_kinetic] = Raise IndexError /\
  exists r : Resources, step_res [sample_kinetic; sample_linear] = Ok r.
Proof.
  split.
  - apply (proj1 (step_res_raises_iff [sample_kinetic])). simpl. lia.
  - apply (step_res_raises_iff [sample_kinetic; sample_linear]). simpl. lia.
Defined.

(** With non-negative Toffoli counts the step lies between the two most
    expensive fragments counted once and the schedule of the text (those
    two once, every other fragment twice): the code may undercount, it never
    overcounts. *)
Theorem step_res_bounds (l : list Resources) (e0 e1 : Resources)
  (rest : list Resources) :
  sorted_reverse toffoli l = e0 :: e1 :: rest ->
  (forall r, r ∈ l -> 0 <= toffoli r) ->
  exists r : Resources,
    step_res l = Ok r /\
    toffoli e0 + toffoli e1 <= toffoli r /\
    toffoli r <= toffoli e0 + toffoli e1 + 2 * sum_toffoli rest /\
    toffoli r <= 2 * sum_toffoli l - toffoli e0 - toffoli e1.
Proof.
  intros Hs Hpos.
  destruct (step_res_sorted l e0 e1 rest Hs) as [Hstep Hfilter].
  eexists. split; [exact Hstep|].
  rewrite toffoli_weighted_twice, toffoli_add.
  rewrite (sum_toffoli_perm _ _ Hfilter).
  pose proof (sorted_reverse_perm toffoli l) as Hperm. rewrite Hs in Hperm.
  rewrite <- (sum_toffoli_perm _ _ Hperm). simpl.
  assert (forall r, r ∈ rest -> 0 <= toffoli r) as Hrest.
  { intros r Hr. apply Hpos. rewrite <- Hperm. right. by right. }
  pose proof (sum_toffoli_filter (fun r => r ∉ [e0; e1]) rest Hrest).
  lia.
Qed.

Lemma step_res_bounds_witness :
  exists r : Resources,
    step_res [sample_kinetic; sample_linear; sample_linear] = Ok r /\
    5504 <= toffoli r <= 5796.
Proof.
  destruct (step_res_bounds [sample_kinetic; sample_linear; sample_linear]
              sample_kinetic sample_linear [sample_linear])
    as (r & Hr & Hlo & Hhi & _).
  - reflexivity.
  - intros r Hr. apply list_elem_of_In in Hr. simpl in Hr.
    destruct Hr as [<-|[<-|[<-|[]]]]; by vm_compute.
  - exists r. split; [exact Hr|].
    change (toffoli sample_kinetic) with 5358 in Hlo, Hhi.
    change (toffoli sample_linear) with 146 in Hlo, Hhi.
    change (sum_toffoli [sample_linear]) with 146 in Hhi. lia.
Defined.

Lemma step_res_distinct_witness :
  exists e0 e1 : Resources,
    toffoli e1 <= toffoli e0 /\
    step_res [sample_linear; sample_kinetic; estimate 19 127 272] =
      Ok (weighted_sum (e0 ⊕ e1)%res [(2, sample_linear)]).
Proof.
  destruct (step_res_distinct [sample_linear; sample_kinetic; estimate 19 127 272])
    as (e0 & e1 & rest & Hs & _ & Hle & _ & Hstep).
  - apply (bool_decide_unpack _). by vm_compute.
  - simpl. lia.
  - vm_compute in Hs. injection Hs as <- <- <-.
    do 2 eexists. split; [exact Hle|exact Hstep].
Defined.

Section StepOrder.

#[local] Open Scope res_scope.

Lemma descending_strongly_sorted (l : list Resources) :
  descending toffoli l -> StronglySorted (flip Z.le) (map toffoli l).
Proof.
  induction 1 as [|x l Hx _ IH]; simpl; constructor; [exact IH|].
  apply Forall_forall. intros t Ht.
  apply list_elem_of_In, in_map_iff in Ht as (y & <- & Hy).
  rewrite List.Forall_forall in Hx. by apply Hx.
Qed.

(** Sorting two arrangements of the same estimates gives the same sequence
    of Toffoli counts. *)
Lemma sorted_keys_perm (l l' : list Resources) :
  Permutation l l' ->
  map toffoli (sorted_reverse toffoli l) =
    map toffoli (sorted_reverse toffoli l').
Proof.
  intros Hp.
  assert (AntiSymm eq (flip Z.le)) as Hanti.
  { intros x y Hxy Hyx. unfold flip in *. lia. }
  apply (StronglySorted_unique (flip Z.le)).
  - apply descending_strongly_sorted, sorted_reverse_descending.
  - apply descending_strongly_sorted, sorted_reverse_descending.
  - apply Permutation_map.
    by rewrite !sorted_reverse_perm.
Qed.

Lemma step_res_toffoli_distinct (l : list Resources) (e0 e1 : Resources)
  (rest : list Resources) :
  NoDup l ->
  sorted_reverse toffoli l = e0 :: e1 :: rest ->
  exists r : Resources,
    step_res l = Ok r /\
    toffoli r = 2 * sum_toffoli l - toffoli e0 - toffoli e1.
Proof.
  intros Hnd Hs.
  destruct (step_res_sorted l e0 e1 rest Hs) as [Hstep Hfilter].
  eexists. split; [exact Hstep|].
  rewrite toffoli_weighted_twice, toffoli_add.
  rewrite (sum_toffoli_perm _ _ Hfilter).
  pose proof (sorted_reverse_perm toffoli l) as Hperm. rewrite Hs in Hperm.
  rewrite <- (sum_toffoli_perm _ _ Hperm).
  assert (NoDup ([e0; e1] ++ rest)) as Hnd' by (simpl; by rewrite Hperm).
  apply NoDup_app in Hnd' as (_ & Hdisj & _).
  rewrite filter_keeps by (intros x Hx Hin; by apply (Hdisj x)).
  simpl. lia.
Qed.

End StepOrder.

(** On pairwise distinct estimates the Toffoli count of the step does not
    depend on the order in which the fragments are listed. *)
Theorem step_res_toffoli_order (l l' : list Resources) :
  NoDup l -> Permutation l l' -> (2 <= length l)%nat ->
  exists r r' : Resources,
    step_res l = Ok r /\ step_res l' = Ok r' /\ toffoli r = toffoli r'.
Proof.
  intros Hnd Hp Hlen.
  pose proof (sorted_keys_perm l l' Hp) as Hkeys.
  pose proof (sorted_reverse_length l) as Hl.
  pose proof (sorted_reverse_length l') as Hl'.
  pose proof (Permutation_length Hp) as Hpl.
  destruct (sorted_reverse toffoli l) as [|e0 [|e1 rest]] eqn:Hs;
    simpl in Hl; try lia.
  destruct (sorted_reverse toffoli l') as [|e0' [|e1' rest']] eqn:Hs';
    simpl in Hl'; try lia.
  simpl in Hkeys. injection Hkeys as H0 H1 _.
  destruct (step_res_toffoli_distinct l e0 e1 rest Hnd Hs) as (r & Hr & Ht).
  assert (NoDup l') as Hnd' by (by rewrite <- Hp).
  destruct (step_res_toffoli_distinct l' e0' e1' rest' Hnd' Hs') as (r' & Hr' & Ht').
  exists r, r'. split; [exact Hr|]. split; [exact Hr'|].
  rewrite Ht, Ht', (sum_toffoli_perm _ _ Hp), H0, H1. reflexivity.
Qed.

Lemma step_res_toffoli_order_witness :
  exists r r' : Resources,
    step_res [sample_linear; sample_kinetic; estimate 19 127 272] = Ok r /\
    step_res [sample_kinetic; sample_linear; estimate 19 127 272] = Ok r' /\
    toffoli r = toffoli r'.
Proof.
  apply step_res_toffoli_order.
  - apply (bool_decide_unpack _). by vm_compute.
  - apply perm_swap.
  - simpl. lia.
Defined.

Section StepQubits.

#[local] Open Scope res_scope.

(** A register size that series composition combines by maximum and
    scaling leaves alone: the clean and the algorithmic qubits. *)
Variable f : Resources -> Z.
Hypothesis f_add : forall a b, f (a ⊕ b) = Z.max (f a) (f b).
Hypothesis f_mul : forall a n, f (a ⊙ n) = f a.

Lemma register_weighted (xs : list Resources) (init : Resources) :
  let r := weighted_sum init (map (fun x => (2, x)) xs) in
  f init <= f r /\
  (forall x, x ∈ xs -> f x <= f r) /\
  (f r = f init \/ exists x, x ∈ xs /\ f r = f x).
Proof.
  revert init. induction xs as [|y xs IH]; intros init; simpl.
  - split; [lia|]. split; [|by left]. intros x Hx. by apply elem_of_nil in Hx.
  - destruct (IH (init ⊕ y ⊙ 2)) as (Hinit & Hall & Hatt).
    rewrite f_add, f_mul in Hinit, Hatt.
    split; [lia|]. split.
    + intros x Hx. apply elem_of_cons in Hx as [->|Hx]; [lia|by apply Hall].
    + destruct Hatt as [Heq|(x & Hx & Heq)].
      * destruct (Z.max_spec (f init) (f y)) as [[_ Hm]|[_ Hm]].
        -- right. exists y. split; [by left|lia].
        -- left. lia.
      * right. exists x. split; [by right|exact Heq].
Qed.

Lemma step_res_register (l : list Resources) (r : Resources) :
  step_res l = Ok r ->
  (forall x, x ∈ l -> f x <= f r) /\ (exists x, x ∈ l /\ f x = f r).
Proof.
  intros Hr.
  pose proof (sorted_reverse_perm toffoli l) as Hperm.
  destruct (sorted_reverse toffoli l) as [|e0 [|e1 rest]] eqn:Hs;
    try (unfold step_res in Hr; rewrite Hs in Hr; discriminate).
  destruct (step_res_sorted l e0 e1 rest Hs) as [Hstep _].
  rewrite Hstep in Hr. injection Hr as <-.
  destruct (register_weighted (filter (fun x => x ∉ [e0; e1]) l) (e0 ⊕ e1))
    as (Hinit & Hall & Hatt).
  rewrite f_add in Hinit, Hatt.
  assert (e0 ∈ l) as H0 by (rewrite <- Hperm; by left).
  assert (e1 ∈ l) as H1 by (rewrite <- Hperm; right; by left).
  split.
  - intros x Hx. destruct (decide (x ∈ [e0; e1])) as [Hin|Hout].
    + apply elem_of_cons in Hin as [->|Hin]; [lia|].
      apply elem_of_cons in Hin as [->|Hin]; [lia|].
      by apply elem_of_nil in Hin.
    + apply Hall. by apply list_elem_of_filter.
  - destruct Hatt as [Heq|(x & Hx & Heq)].
    + destruct (Z.max_spec (f e0) (f e1)) as [[_ Hm]|[_ Hm]].
      * exists e1. split; [exact H1|lia].
      * exists e0. split; [exact H0|lia].
    + exists x. apply list_elem_of_filter in Hx as [_ Hx]. by split.
Qed.

End StepQubits.

(** The step needs as many clean and as many algorithmic qubits as its most
    demanding fragment, and no more; this holds whether or not estimates
    repeat. *)
Theorem step_res_qubits (l : list Resources) (r : Resources) :
  step_res l = Ok r ->
  (forall x, x ∈ l ->
     clean_qubits (qubit_manager x) <= clean_qubits (qubit_manager r) /\
     algo_qubits (qubit_manager x) <= algo_qubits (qubit_manager r)) /\
  (exists x, x ∈ l /\
     clean_qubits (qubit_manager x) = clean_qubits (qubit_manager r)) /\
  (exists x, x ∈ l /\
     algo_qubits (qubit_manager x) = algo_qubits (qubit_manager r)).
Proof.
  intros Hr.
  destruct (step_res_register (fun x => clean_qubits (qubit_manager x))
              ltac:(reflexivity) ltac:(reflexivity) l r Hr) as [Hc Hc'].
  destruct (step_res_register (fun x => algo_qubits (qubit_manager x))
              ltac:(reflexivity) ltac:(reflexivity) l r Hr) as [Ha Ha'].
  split; [|split; assumption].
  intros x Hx. split; [by apply Hc|by apply Ha].
Qed.

Lemma step_res_qubits_witness :
  exists x : Resources,
    x ∈ [sample_kinetic; sample_linear; estimate 7 130 272] /\
    algo_qubits (qubit_manager x) = 130.
Proof.
  destruct (step_res_qubits [sample_kinetic; sample_linear; estimate 7 130 272]
              (sample_kinetic ⊕ estimate 7 130 272
               ⊕ sample_linear ⊙ 2)%res) as (_ & _ & x & Hx & Ha).
  - by vm_compute.
  - exists x. split; [exact Hx|]. rewrite Ha. reflexivity.
Defined.

(** ** The number of Trotter steps: outcomes and meaning *)


(** Every outcome of [num_steps] on arguments that are zero or of a
    magnitude between [10^-30] and [10^30], where no float operation
    overflows: a zero tolerance is a [ZeroDivisionError]; otherwise a
    negative time or a negative ratio of norm to tolerance is a [TypeError]
    (the power is complex); otherwise the call returns. *)
Theorem num_steps_outcome (norm req_error total_time : R) :
  moderate norm -> moderate req_error -> moderate total_time ->
  (req_error = 0%R ->
   num_steps norm req_error total_time = Raise ZeroDivisionError) /\
  (req_error <> 0%R -> (total_time < 0 \/ norm / req_error < 0)%R ->
   num_steps norm req_error total_time = Raise TypeError) /\
  (req_error <> 0%R -> (0 <= total_time)%R -> (0 <= norm / req_error)%R ->
   exists n : Z, num_steps norm req_error total_time = Ok n /\ 0 <= n).
Proof.
  intros _ _ _. unfold num_steps. repeat split.
  - intros ->. destruct (Req_dec_T 0 0); [reflexivity|lra].
  - intros He [Ht|Hq]; destruct (Req_dec_T req_error 0) as [|_]; try lra.
    + by rewrite (float_pow_neg total_time).
    + rewrite (float_pow_neg (norm / req_error)) by exact Hq.
      by destruct (float_pow total_time 1.5).
  - intros He Ht Hq. destruct (Req_dec_T req_error 0) as [|_]; [lra|].
    rewrite !float_pow_nonneg by assumption.
    eexists. split; [reflexivity|].
    pose proof (pow_nonneg_ge0 total_time 1.5) as H1.
    pose proof (pow_nonneg_ge0 (norm / req_error) 0.5) as H2.
    pose proof (Rmult_le_pos _ _ H1 H2) as H3.
    destruct (ceil_spec (pow_nonneg total_time 1.5
                         * pow_nonneg (norm / req_error) 0.5)) as [_ Hhi].
    apply le_IZR. lra.
Qed.

Lemma num_steps_outcome_witness :
  num_steps 1 0 1 = Raise ZeroDivisionError /\
  num_steps 1 1 (-1) = Raise TypeError /\
  num_steps (-1) 1 1 = Raise TypeError /\
  exists n : Z, num_steps 1 (-1) 1 = Raise TypeError /\
                num_steps (-2) (-1) 1 = Ok n.
Proof.
  split; [|split; [|split]].
  - apply (num_steps_outcome 1 0 1); unfold moderate, in_range; lra.
  - apply (num_steps_outcome 1 1 (-1)); unfold moderate, in_range; lra.
  - apply (num_steps_outcome (-1) 1 1); unfold moderate, in_range; lra.
  - destruct (num_steps_outcome (-2) (-1) 1) as (_ & _ & H);
      [unfold moderate, in_range; lra..|].
    destruct H as (n & Hn & _); try lra.
    exists n. split; [|exact Hn].
    apply (num_steps_outcome 1 (-1) 1); unfold moderate, in_range; lra.
Defined.


(** On its domain [num_steps] returns zero exactly when the norm or the
    time is zero, for arguments that are zero or of a magnitude between
    [10^-30] and [10^30], where no float operation underflows. *)
Theorem num_steps_zero_iff (norm req_error total_time : R) :
  moderate norm -> moderate req_error -> moderate total_time ->
  (0 <= norm)%R -> (0 < req_error)%R -> (0 <= total_time)%R ->
  num_steps norm req_error total_time = Ok 0 <->
  (norm = 0 \/ total_time = 0)%R.
Proof.
  intros _ _ _ Hn He Ht. rewrite num_steps_nonneg by assumption.
  assert (0 <= norm / req_error)%R as Hq.
  { unfold Rdiv. apply Rmult_le_pos; [exact Hn|]. left. by apply Rinv_0_lt_compat. }
  set (v := (pow_nonneg total_time 1.5 * pow_nonneg (norm / req_error) 0.5)%R).
  destruct (ceil_spec v) as [Hlo Hhi].
  split.
  - intros Hc. injection Hc as Hc. rewrite Hc in Hlo, Hhi.
    destruct (Req_dec_T norm 0) as [|Hn0]; [by left|].
    destruct (Req_dec_T total_time 0) as [|Ht0]; [by right|]. exfalso.
    assert (0 < norm / req_error)%R as Hq'.
    { unfold Rdiv. apply Rmult_lt_0_compat; [lra|]. by apply Rinv_0_lt_compat. }
    assert (0 < v)%R; [|simpl in Hhi; lra].
    unfold v. rewrite !pow_nonneg_pos by lra.
    apply Rmult_lt_0_compat; unfold Rpower; apply exp_pos.
  - intros Hz. f_equal. apply ceil_unique.
    assert (v = 0)%R as ->; [|simpl; lra].
    unfold v, pow_nonneg. destruct Hz as [->| ->].
    + replace (0 / req_error)%R with 0%R by (unfold Rdiv; ring).
      destruct (Req_dec_T 0 0); [ring|lra].
    + destruct (Req_dec_T 0 0); [ring|lra].
Qed.

Lemma num_steps_zero_iff_witness : num_steps 0 0.01 152 = Ok 0.
Proof.
  apply (proj2 (num_steps_zero_iff 0 0.01 152
                  ltac:(unfold moderate, in_range; lra)
                  ltac:(unfold moderate, in_range; lra)
                  ltac:(unfold moderate, in_range; lra)
                  ltac:(lra) ltac:(lra) ltac:(lra))).
  by left.
Defined.

(** ** The guarded cells: every outcome *)

Lemma num_steps_fixed (x : R) :
  ((x < 0)%R /\ num_steps x req_error total_time = Raise TypeError) \/
  ((0 <= x)%R /\ exists n : Z, num_steps x req_error total_time = Ok n).
Proof.
  destruct (Rlt_dec x 0) as [Hneg|Hpos].
  - left. split; [exact Hneg|].
    apply (num_steps_raises x req_error total_time); [unfold req_error; lra|exact Hneg].
  - right. assert (0 <= x)%R as Hx by lra. split; [exact Hx|].
    exact (num_steps_py_float x Hx).
Qed.

Lemma num_steps_fixed_sign (x : R) (n : Z) :
  num_steps x req_error total_time = Ok n -> 0 <= n.
Proof.
  intros Hn. destruct (num_steps_fixed x) as [[_ Hr]|[Hx _]]; [congruence|].
  rewrite num_steps_nonneg in Hn;
    [|exact Hx|unfold req_error; lra|unfold total_time; lra].
  injection Hn as <-.
  pose proof (pow_nonneg_ge0 total_time 1.5) as H1.
  pose proof (pow_nonneg_ge0 (x / req_error) 0.5) as H2.
  pose proof (Rmult_le_pos _ _ H1 H2) as H3.
  destruct (ceil_spec (pow_nonneg total_time 1.5
                       * pow_nonneg (x / req_error) 0.5)) as [_ Hhi].
  apply le_IZR. lra.
Qed.

(** The three cells run one at a time, from a fresh kernel, on norms that
    are [None] or floats (zero or of a magnitude between [10^-30] and
    [10^30]).  Without the OG norm nothing is bound and nothing raised, not
    even with a mode-based norm that is there.  A negative OG norm is a
    [TypeError] in the step cell and a [NameError] in both total cells.
    With an OG norm that is not negative the step cell binds [nsteps_OG]
    and the first total cell binds [res_total_OG]; a mode-based norm that
    is [None] or negative then makes the step cell raise a [TypeError]
    after that binding and the second total cell raise a [NameError] on
    the unbound [nsteps_mode]; otherwise all four names are bound. *)
Theorem run_each_outcome (norm_OG norm_mode : PyVal)
  (res_initial step_OG_res step_mode_res : Resources) :
  (norm_OG = PyNone ->
   run_each norm_OG norm_mode res_initial step_OG_res step_mode_res =
     (no_globals, [None; None; None])) /\
  (forall x : R,
     norm_OG = PyFloat x -> moderate x -> (x < 0)%R ->
     run_each norm_OG norm_mode res_initial step_OG_res step_mode_res =
       (no_globals, [Some TypeError; Some NameError; Some NameError])) /\
  (forall x : R,
     norm_OG = PyFloat x -> moderate x -> (0 <= x)%R ->
     exists n : Z,
       0 <= n /\
       (norm_mode = PyNone ->
        run_each norm_OG norm_mode res_initial step_OG_res step_mode_res =
          (mkGlobals (Some n) None
             (Some (res_initial ⊕ step_OG_res ⊙ n)%res) None,
           [Some TypeError; None; Some NameError])) /\
       (forall y : R,
          norm_mode = PyFloat y -> moderate y -> (y < 0)%R ->
          run_each norm_OG norm_mode res_initial step_OG_res step_mode_res =
            (mkGlobals (Some n) None
               (Some (res_initial ⊕ step_OG_res ⊙ n)%res) None,
             [Some TypeError; None; Some NameError])) /\
       (forall y : R,
          norm_mode = PyFloat y -> moderate y -> (0 <= y)%R ->
          exists m : Z,
            0 <= m /\
            run_each norm_OG norm_mode res_initial step_OG_res step_mode_res =
              (mkGlobals (Some n) (Some m)
                 (Some (res_initial ⊕ step_OG_res ⊙ n)%res)
                 (Some (res_initial ⊕ step_mode_res ⊙ m)%res),
               [None; None; None]))).
Proof.
  split; [by intros ->|]. split.
  - intros x -> _ Hx. unfold run_each, steps_cell_each. simpl.
    destruct (num_steps_fixed x) as [[_ Hn]|[Hx' _]]; [|lra].
    rewrite Hn. reflexivity.
  - intros x -> _ Hx.
    destruct (num_steps_fixed x) as [[Hx' _]|[_ [n Hn]]]; [lra|].
    exists n. split; [by eapply num_steps_fixed_sign|]. split; [|split].
    + intros ->. unfold run_each, steps_cell_each. simpl.
      rewrite Hn. reflexivity.
    + intros y -> _ Hy. unfold run_each, steps_cell_each. simpl.
      rewrite Hn. simpl.
      destruct (num_steps_fixed y) as [[_ Hm]|[Hy' _]]; [|lra].
      rewrite Hm. reflexivity.
    + intros y -> _ Hy.
      destruct (num_steps_fixed y) as [[Hy' _]|[_ [m Hm]]]; [lra|].
      exists m. split; [by eapply num_steps_fixed_sign|].
      unfold run_each, steps_cell_each. simpl.
      rewrite Hn. simpl. rewrite Hm. reflexivity.
Qed.

Lemma run_each_outcome_witness :
  exists n : Z,
    run_each (PyFloat 1) PyNone sample_linear sample_kinetic sample_kinetic =
      (mkGlobals (Some n) None
         (Some (sample_linear ⊕ sample_kinetic ⊙ n)%res) None,
       [Some TypeError; None; Some NameError]).
Proof.
  destruct (run_each_outcome (PyFloat 1) PyNone sample_linear sample_kinetic
              sample_kinetic) as (_ & _ & H).
  destruct (H 1%R) as (n & _ & Hnone & _);
    [reflexivity|unfold moderate, in_range; lra|lra|].
  exists n. by apply Hnone.
Defined.

(** With both norms present, not negative and zero or of a magnitude
    between [10^-30] and [10^30], the cells bind both step counts and both
    totals and none of them raises, run in one go or one at a time; each
    total has the Toffoli gates of the initial state plus those of one step
    times the number of steps. *)
Theorem run_cells_totals (x y : R)
  (res_initial step_OG_res step_mode_res : Resources) :
  moderate x -> moderate y ->
  (0 <= x)%R -> (0 <= y)%R ->
  exists (g : Globals) (n_OG n_mode : Z) (tot_OG tot_mode : Resources),
    run_cells (PyFloat x) (PyFloat y) res_initial step_OG_res step_mode_res =
      Ok g /\
    run_each (PyFloat x) (PyFloat y) res_initial step_OG_res step_mode_res =
      (g, [None; None; None]) /\
    0 <= n_OG /\ 0 <= n_mode /\
    nsteps_OG g = Some n_OG /\ nsteps_mode g = Some n_mode /\
    res_total_OG g = Some tot_OG /\ res_total_mode g = Some tot_mode /\
    toffoli tot_OG = toffoli res_initial + n_OG * toffoli step_OG_res /\
    toffoli tot_mode = toffoli res_initial + n_mode * toffoli step_mode_res.
Proof.
  intros _ _ Hx Hy.
  destruct (run_cells_both x y res_initial step_OG_res step_mode_res Hx Hy)
    as (n & m & Hn & Hm & Hrun).
  eexists. exists n, m. do 2 eexists. split; [exact Hrun|]. split.
  { unfold run_each, steps_cell_each. simpl.
    rewrite Hn. simpl. rewrite Hm. reflexivity. }
  split; [exact (num_steps_fixed_sign x n Hn)|].
  split; [exact (num_steps_fixed_sign y m Hm)|].
  simpl. do 4 (split; [reflexivity|]).
  split; by rewrite toffoli_add, toffoli_mul.
Qed.

Lemma run_cells_totals_witness :
  exists g : Globals,
    run_cells (PyFloat 1) (PyFloat 2) sample_linear sample_kinetic
      sample_kinetic = Ok g /\
    is_Some (res_total_OG g) /\ is_Some (res_total_mode g).
Proof.
  destruct (run_cells_totals 1 2 sample_linear sample_kinetic sample_kinetic)
    as (g & n & m & t1 & t2 & Hg & _ & _ & _ & _ & _ & H1 & H2 & _);
    [unfold moderate, in_range; lra..|].
  exists g. split; [exact Hg|]. split; eauto.
Defined.

(** ** Wires and slices *)

Example slice_examples :
  slice [1; 2; 3; 4] 1 3 = [2; 3] /\
  slice_to [1; 2; 3; 4] (-1) = [1; 2; 3] /\
  slice [1; 2; 3; 4] (-10) 2 = [1; 2] /\
  slice [1; 2; 3; 4] 3 1 = [] /\
  slice_from [1; 2; 3; 4] 6 = [] /\
  getitem_list [1; 2; 3; 4] (-1) = Ok 4 /\
  getitem_list [1; 2; 3; 4] 4 = Raise IndexError.
Proof. repeat split. Qed.

Section Slices.

Context {A : Type}.
Implicit Types (l : list A) (i k n : Z).

Lemma slice_to_take l n :
  0 <= n -> slice_to l n = take (Z.to_nat n) l.
Proof.
  intros Hn. unfold slice_to, slice, clip.
  destruct (Z.ltb_spec 0 0) as [|_]; [lia|].
  destruct (Z.ltb_spec n 0) as [|_]; [lia|].
  rewrite (Z.min_l 0) by lia. simpl. rewrite Z.sub_0_r.
  destruct (Z.le_gt_cases n (Z.of_nat (length l))) as [Hle|Hgt].
  - by rewrite Z.min_l by lia.
  - rewrite Z.min_r by lia. rewrite Nat2Z.id.
    rewrite (take_ge l (Z.to_nat n)) by lia. by apply take_ge.
Qed.

Lemma slice_to_length l n :
  0 <= n <= Z.of_nat (length l) -> Z.of_nat (length (slice_to l n)) = n.
Proof.
  intros Hn. rewrite slice_to_take by lia. rewrite length_take. lia.
Qed.

Lemma slice_from_drop l n :
  0 <= n -> slice_from l n = drop (Z.to_nat n) l.
Proof.
  intros Hn. unfold slice_from, slice, clip.
  destruct (Z.ltb_spec n 0) as [|_]; [lia|].
  destruct (Z.ltb_spec (Z.of_nat (length l)) 0) as [|_]; [lia|].
  rewrite (Z.min_l (Z.of_nat (length l))) by lia.
  destruct (Z.le_gt_cases n (Z.of_nat (length l))) as [Hle|Hgt].
  - rewrite Z.min_l by lia. apply take_ge. rewrite length_drop. lia.
  - rewrite Z.min_r by lia. rewrite Nat2Z.id.
    rewrite !drop_ge by lia. by rewrite take_nil.
Qed.

Lemma slice_chunk l k i :
  0 <= k -> 0 <= i -> (i + 1) * k <= Z.of_nat (length l) ->
  slice l (i * k) (k * (i + 1)) =
    take (Z.to_nat k) (drop (Z.to_nat i * Z.to_nat k) l).
Proof.
  intros Hk Hi Hlen. unfold slice, clip.
  destruct (Z.ltb_spec (i * k) 0) as [|_]; [nia|].
  destruct (Z.ltb_spec (k * (i + 1)) 0) as [|_]; [nia|].
  rewrite !Z.min_l by nia.
  replace (k * (i + 1) - i * k) with k by lia.
  by rewrite Z2Nat.inj_mul by lia.
Qed.

Lemma getitem_list_ok_iff l i :
  0 <= i -> (exists x, getitem_list l i = Ok x) <-> i < Z.of_nat (length l).
Proof.
  intros Hi. unfold getitem_list, index.
  destruct (Z.ltb_spec i 0) as [|_]; [lia|].
  destruct (Z.ltb_spec i 0) as [|_]; [lia|].
  destruct (l !! Z.to_nat i) as [x|] eqn:Hx.
  - apply lookup_lt_Some in Hx. split; [intros _; lia|eauto].
  - apply lookup_ge_None in Hx. split; [intros [x [=]]|intros ?; lia].
Qed.

Lemma getitem_list_raises l i e :
  getitem_list l i = Raise e -> e = IndexError.
Proof.
  unfold getitem_list, index.
  destruct (_ <? 0); [by intros [= <-]|].
  destruct (l !! _); [discriminate|by intros [= <-]].
Qed.

(** Cutting a list of [m * k] elements into [m] consecutive chunks of [k]
    and gluing them gives the list back. *)
Lemma chunks_concat (c m : nat) l :
  length l = (m * c)%nat ->
  concat (map (fun j : nat => take c (drop (j * c)%nat l)) (seq 0 m)) = l.
Proof.
  revert l. induction m as [|m IH]; intros l Hlen.
  - simpl in *. by destruct l.
  - rewrite <- cons_seq, <- fmap_S_seq. simpl.
    transitivity (take c l ++ drop c l); [|apply take_drop]. f_equal.
    etransitivity; [|apply (IH (drop c l)); rewrite length_drop; lia].
    f_equal. rewrite <- list_fmap_compose. apply map_ext. intros j. simpl.
    by rewrite drop_drop.
Qed.

End Slices.

Section WireNames.

Lemma wire_inj (prefix : string) (i j : Z) :
  wire prefix i = wire prefix j -> i = j.
Proof.
  unfold wire. intros H. apply String.app_inj in H. by apply pretty_Z_inj in H.
Qed.

Lemma range_NoDup (n : Z) : NoDup (range n).
Proof.
  unfold range. apply (NoDup_fmap_2 Z.of_nat), NoDup_seq.
Qed.

Lemma elem_of_range (n i : Z) : i ∈ range n <-> 0 <= i < n.
Proof.
  unfold range. rewrite list_elem_of_fmap. split.
  - intros (j & -> & Hj). apply list_elem_of_In, in_seq in Hj. lia.
  - intros Hi. exists (Z.to_nat i). split; [lia|].
    apply list_elem_of_In, in_seq. lia.
Qed.

Lemma wires_NoDup (prefix : string) (n : Z) : NoDup (wires prefix n).
Proof.
  unfold wires. apply NoDup_fmap_2_strong; [|apply range_NoDup].
  intros i j _ _. apply wire_inj.
Qed.

Lemma wires_length (prefix : string) (n : Z) :
  0 <= n -> Z.of_nat (length (wires prefix n)) = n.
Proof. intros Hn. unfold wires. rewrite length_map. by apply range_length. Qed.

Lemma elem_of_wires (prefix : string) (n : Z) (x : string) :
  x ∈ wires prefix n <-> exists i, x = wire prefix i /\ 0 <= i < n.
Proof.
  unfold wires. rewrite list_elem_of_fmap. setoid_rewrite elem_of_range.
  reflexivity.
Qed.

End WireNames.

Ltac wire_clash :=
  repeat match goal with
         | H : _ ∈ _ ++ _ |- _ => apply elem_of_app in H as [H|H]
         | H : _ ∈ wires _ _ |- _ =>
             apply elem_of_wires in H as (? & H & _)
         end;
  subst; unfold wire in *;
  match goal with
  | H : String ?c ?p +:+ ?s = String ?c' ?p' +:+ ?s' |- _ =>
      change (String c (p +:+ s) = String c' (p' +:+ s')) in H; discriminate H
  end.

(** The five registers of the wire-naming cell have pairwise distinct
    labels, within and across registers, so together they are
    [2 * b + log_N + k * M + 2 * k] wires. *)
Theorem wires_cell_distinct (b log_N k M : Z) :
  let w := wires_cell b log_N k M in
  let all_wires :=
    phase_grad_wires w ++ electronic_wires w ++ coeff_wires w
    ++ total_mode_wires w ++ scratch_wires w in
  NoDup all_wires /\
  (0 <= b -> 0 <= log_N -> 0 <= k -> 0 <= M ->
   Z.of_nat (length all_wires) = 2 * b + log_N + k * M + 2 * k).
Proof.
  simpl. split.
  - repeat (apply (proj2 (NoDup_app _ _)); split; [apply wires_NoDup|];
            split; [intros x Hx Hx'; wire_clash|]).
    apply wires_NoDup.
  - intros Hb Hl Hk HM. rewrite !length_app, !Nat2Z.inj_add.
    rewrite !wires_length by nia. lia.
Qed.

Lemma wires_cell_distinct_witness :
  Z.of_nat (length (phase_grad_wires (wires_cell 20 3 4 19)
                    ++ electronic_wires (wires_cell 20 3 4 19)
                    ++ coeff_wires (wires_cell 20 3 4 19)
                    ++ total_mode_wires (wires_cell 20 3 4 19)
                    ++ scratch_wires (wires_cell 20 3 4 19))) = 127.
Proof.
  destruct (wires_cell_distinct 20 3 4 19) as [_ H]. apply H; lia.
Defined.

Section SliceFacts.

Context {A : Type}.
Implicit Types (l : list A) (a b c : Z).

Lemma clip_bounds (len i : Z) : 0 <= len -> 0 <= clip len i <= len.
Proof.
  intros Hlen. unfold clip. destruct (Z.ltb_spec i 0); lia.
Qed.

Lemma slice_length l a b :
  Z.of_nat (length (slice l a b)) =
    Z.max 0 (clip (Z.of_nat (length l)) b - clip (Z.of_nat (length l)) a).
Proof.
  unfold slice.
  pose proof (clip_bounds (Z.of_nat (length l)) a ltac:(lia)).
  pose proof (clip_bounds (Z.of_nat (length l)) b ltac:(lia)).
  rewrite length_take, length_drop. lia.
Qed.

Lemma slice_submseteq l a b : slice l a b ⊆+ l.
Proof.
  unfold slice. etransitivity; [apply submseteq_take|apply submseteq_drop].
Qed.

Lemma slice_adjacent l a b c :
  0 <= a <= b -> b <= c -> slice l a b ++ slice l b c = slice l a c.
Proof.
  intros Hab Hbc. unfold slice, clip.
  destruct (Z.ltb_spec a 0), (Z.ltb_spec b 0), (Z.ltb_spec c 0); try lia.
  set (len := Z.of_nat (length l)).
  set (x := Z.to_nat (Z.min a len)).
  set (y := Z.to_nat (Z.min b len - Z.min a len)).
  set (z := Z.to_nat (Z.min c len - Z.min b len)).
  replace (drop (Z.to_nat (Z.min b len)) l) with (drop y (drop x l))
    by (rewrite drop_drop; f_equal; lia).
  replace (Z.to_nat (Z.min c len - Z.min a len)) with (y + z)%nat by lia.
  apply take_take_drop.
Qed.

End SliceFacts.

Lemma NoDup_of_submseteq {A : Type} (l k : list A) :
  NoDup l -> k ⊆+ l -> NoDup k.
Proof.
  intros Hl Hk. apply submseteq_Permutation in Hk as [k' Hk].
  rewrite Hk in Hl. by apply NoDup_app in Hl as [? _].
Qed.

Lemma wires_length_any (prefix : string) (n : Z) :
  Z.of_nat (length (wires prefix n)) = Z.max 0 n.
Proof. unfold wires, range. rewrite !length_map, length_seq. lia. Qed.

(** [mode_wires] is the register of the first mode and [mode2_wires] that
    of the second, when the molecule has them: with at least one mode
    [mode_wires] has [k] wires, with at least two so has [mode2_wires], and
    the two never share a wire.  With a single mode [mode2_wires] is empty;
    with no mode [mode_wires] is empty too. *)
Theorem mode_wires_registers (b log_N k M : Z) :
  0 <= k ->
  let w := wires_cell b log_N k M in
  mode_wires w = Wired.mode_register (total_mode_wires w) k 0 /\
  mode2_wires w k = Wired.mode_register (total_mode_wires w) k 1 /\
  NoDup (mode_wires w ++ mode2_wires w k) /\
  (1 <= M -> Z.of_nat (length (mode_wires w)) = k) /\
  (2 <= M -> Z.of_nat (length (mode2_wires w k)) = k) /\
  (M <= 1 -> mode2_wires w k = []) /\
  (M <= 0 -> mode_wires w = []).
Proof.
  intros Hk. simpl. unfold mode2_wires, slice_to, Wired.mode_register. simpl.
  replace (k * (0 + 1)) with k by lia.
  replace (1 * k) with k by lia. replace (k * (1 + 1)) with (2 * k) by lia.
  split; [reflexivity|]. split; [reflexivity|]. split; [|repeat split].
  - rewrite slice_adjacent by lia.
    eapply NoDup_of_submseteq; [apply (wires_NoDup "m_" (k * M))|].
    apply slice_submseteq.
  - intros HM. rewrite slice_length, wires_length_any. unfold clip.
    destruct (Z.ltb_spec k 0), (Z.ltb_spec 0 0); try lia; nia.
  - intros HM. rewrite slice_length, wires_length_any. unfold clip.
    destruct (Z.ltb_spec k 0), (Z.ltb_spec (2 * k) 0); try lia; nia.
  - intros HM. apply length_zero_iff_nil, Nat2Z.inj.
    rewrite slice_length, wires_length_any. unfold clip.
    destruct (Z.ltb_spec k 0), (Z.ltb_spec (2 * k) 0); try lia; nia.
  - intros HM. apply length_zero_iff_nil, Nat2Z.inj.
    rewrite slice_length, wires_length_any. unfold clip.
    destruct (Z.ltb_spec k 0), (Z.ltb_spec 0 0); try lia; nia.
Qed.

Lemma mode_wires_registers_witness :
  mode2_wires (wires_cell 20 3 4 1) 4 = [] /\
  Z.of_nat (length (mode2_wires (wires_cell 20 3 4 19) 4)) = 4.
Proof.
  split.
  - apply (mode_wires_registers 20 3 4 1); lia.
  - apply (mode_wires_registers 20 3 4 19); lia.
Defined.

(** The mode registers that [kinetic_cir] transforms, squares and
    transforms back tile [total_mode_wires]: [M] registers of [k] wires
    each, one after the other, every wire in exactly one of them. *)
Theorem mode_registers_tile (total_mode_wires : list string) (k M : Z) :
  0 <= k -> 0 <= M ->
  Z.of_nat (length total_mode_wires) = k * M ->
  concat (map (Wired.mode_register total_mode_wires k) (range M)) =
    total_mode_wires /\
  Forall (fun i =>
            Z.of_nat (length (Wired.mode_register total_mode_wires k i)) = k)
         (range M).
Proof.
  intros Hk HM Hlen.
  assert (forall i, i ∈ range M ->
            Wired.mode_register total_mode_wires k i =
              take (Z.to_nat k)
                   (drop (Z.to_nat i * Z.to_nat k) total_mode_wires)) as Hreg.
  { intros i Hi. apply elem_of_range in Hi.
    unfold Wired.mode_register. apply slice_chunk; nia. }
  split.
  - rewrite <- (chunks_concat (Z.to_nat k) (Z.to_nat M) total_mode_wires) at 2
      by nia.
    f_equal. unfold range at 1. rewrite <- list_fmap_compose.
    apply map_ext_in. intros j Hj. simpl. rewrite Hreg.
    + by rewrite Nat2Z.id.
    + apply elem_of_range. apply in_seq in Hj. lia.
  - apply Forall_forall. intros i Hi. rewrite (Hreg i Hi).
    apply elem_of_range in Hi. rewrite length_take, length_drop. nia.
Qed.

Lemma mode_registers_tile_witness :
  concat (map (Wired.mode_register (wires "m_" (4 * 19)) 4) (range 19)) =
    wires "m_" (4 * 19).
Proof.
  apply (mode_registers_tile (wires "m_" (4 * 19)) 4 19); try lia.
  by rewrite wires_length.
Defined.

(** ** Circuit templates with their wires *)

Section MapM.

Context {A B : Type}.
Variable f : A -> result B.

Lemma mapM_inv (l : list A) (ys : list B) :
  mapM f l = Ok ys -> Forall2 (fun x y => f x = Ok y) l ys.
Proof.
  revert ys. induction l as [|x l IH]; intros ys; simpl.
  - intros [= <-]. constructor.
  - destruct (f x) as [y|e] eqn:Hx; simpl; [|discriminate].
    destruct (mapM f l) as [ys'|e]; simpl; [|discriminate].
    intros [= <-]. constructor; [exact Hx|by apply IH].
Qed.

Lemma mapM_raise (l : list A) (e : exn) :
  mapM f l = Raise e -> exists x, x ∈ l /\ f x = Raise e.
Proof.
  induction l as [|x l IH]; simpl; [discriminate|].
  destruct (f x) as [y|e'] eqn:Hx; simpl.
  - destruct (mapM f l) as [ys'|e']; simpl; [discriminate|].
    intros [= <-]. destruct (IH eq_refl) as (z & Hz & Hfz).
    exists z. split; [by right|exact Hfz].
  - intros [= <-]. exists x. split; [by left|exact Hx].
Qed.

Lemma mapM_ok (l : list A) :
  (forall x, x ∈ l -> exists y, f x = Ok y) -> exists ys, mapM f l = Ok ys.
Proof.
  induction l as [|x l IH]; intros Hall; simpl; [eauto|].
  destruct (Hall x ltac:(by left)) as [y ->]. simpl.
  destruct IH as [ys ->]; [intros z Hz; apply Hall; by right|].
  simpl. eauto.
Qed.

End MapM.



Section DistinctWires.

Lemma elem_of_slice {A : Type} (l : list A) (a b : Z) (x : A) :
  x ∈ slice l a b -> x ∈ l.
Proof. intros Hx. eapply elem_of_submseteq; [exact Hx|apply slice_submseteq]. Qed.

Lemma slice_NoDup {A : Type} (l : list A) (a b : Z) :
  NoDup l -> NoDup (slice l a b).
Proof. intros Hl. eapply NoDup_of_submseteq; [exact Hl|apply slice_submseteq]. Qed.

Lemma mode_pair_NoDup (n k : Z) :
  0 <= k ->
  NoDup (slice (wires "m_" n) 0 k ++ slice (wires "m_" n) k (2 * k)).
Proof.
  intros Hk. rewrite slice_adjacent by lia. apply slice_NoDup, wires_NoDup.
Qed.

Lemma getitem_list_elem_of {A : Type} (l : list A) (i : Z) (x : A) :
  getitem_list l i = Ok x -> x ∈ l.
Proof.
  unfold getitem_list, index. destruct (_ <? 0); [discriminate|].
  destruct (l !! _) as [y|] eqn:Hy; [|discriminate].
  intros [= <-]. by eapply list_elem_of_lookup_2.
Qed.

End DistinctWires.

Ltac wire_members :=
  repeat match goal with
         | H : _ ∈ _ ++ _ |- _ => apply elem_of_app in H as [H|H]
         | H : _ ∈ [_] |- _ => apply list_elem_of_singleton in H
         | H : _ ∈ slice _ _ _ |- _ => apply elem_of_slice in H
         | H : _ ∈ wires _ _ |- _ =>
             apply elem_of_wires in H as (? & H & _)
         end;
  subst; unfold wire in *;
  match goal with
  | H : String ?c ?p +:+ ?s = String ?c' ?p' +:+ ?s' |- _ =>
      change (String c (p +:+ s) = String c' (p' +:+ s')) in H; discriminate H
  end.

Ltac wires_distinct :=
  repeat first
    [ apply NoDup_nil_2
    | apply NoDup_singleton
    | apply wires_NoDup
    | apply slice_NoDup
    | apply mode_pair_NoDup; assumption
    | apply (proj2 (NoDup_app _ _)); split; [|split];
      [|intros ?x ?Hx ?Hx'; wire_members|] ].

Section DistinctOps.

Lemma scratch_adders_distinct (b k n n' : Z) :
  distinct_wires (Wired.scratch_adders b k (wires "c_" n) (wires "pg_" n')).
Proof.
  apply Forall_forall. intros op Hop.
  apply list_elem_of_In, in_map_iff in Hop as (i & <- & _).
  unfold Wired.phase_adder, slice_to. simpl. wires_distinct.
Qed.

End DistinctOps.

Ltac ops_forall :=
  repeat first
    [ apply Forall_nil_2
    | apply scratch_adders_distinct
    | apply Forall_cons_2;
      [unfold Wired.mode_register, slice_to, slice_from; simpl; wires_distinct|]
    | apply Forall_app; split ].

(** On the wires of the wire-naming cell no operation of the four templates
    is handed the same wire twice: the registers an operation combines
    (coefficients, phase gradient, scratch, one or two mode registers,
    electronic wires) never overlap. *)
Theorem templates_distinct_wires (b log_N N M k : Z) :
  0 <= k ->
  let w := wires_cell b log_N k M in
  distinct_wires
    (Wired.Qsquared_cir b N k (phase_grad_wires w) (electronic_wires w)
       (coeff_wires w) (total_mode_wires w) (mode_wires w)
       (scratch_wires w)) /\
  distinct_wires
    (Wired.QrQs_cir b N k (phase_grad_wires w) (electronic_wires w)
       (coeff_wires w) (total_mode_wires w) (mode_wires w)
       (mode2_wires w k) (scratch_wires w)) /\
  distinct_wires
    (Wired.kinetic_cir b M k (phase_grad_wires w) (electronic_wires w)
       (coeff_wires w) (total_mode_wires w) (mode_wires w)
       (scratch_wires w)) /\
  (forall ops : list Wired.WOp,
     Wired.Q_cir b N k (phase_grad_wires w) (electronic_wires w)
       (coeff_wires w) (total_mode_wires w) (mode_wires w)
       (scratch_wires w) = Ok ops ->
     distinct_wires ops).
Proof.
  intros Hk. simpl. unfold mode2_wires.
  split; [|split; [|split]].
  - unfold Wired.Qsquared_cir, distinct_wires. ops_forall.
  - unfold Wired.QrQs_cir, distinct_wires. ops_forall.
  - unfold Wired.kinetic_cir, distinct_wires.
    repeat (apply Forall_app; split).
    + apply Forall_forall. intros op Hop.
      apply list_elem_of_In, in_map_iff in Hop as (i & <- & _).
      unfold Wired.mode_register. simpl. wires_distinct.
    + apply Forall_forall. intros op Hop.
      apply list_elem_of_In, in_flat_map in Hop as (i & _ & Hop).
      apply list_elem_of_In in Hop. revert op Hop. apply Forall_forall.
      ops_forall.
    + apply Forall_forall. intros op Hop.
      apply list_elem_of_In, in_map_iff in Hop as (i & <- & _).
      unfold Wired.mode_register. simpl. wires_distinct.
    + ops_forall.
  - intros ops. unfold Wired.Q_cir, distinct_wires.
    destruct (mapM _ (range k)) as [adders|e] eqn:Hm; simpl; [|discriminate].
    intros [= <-]. apply mapM_inv in Hm.
    apply Forall_cons_2; [simpl; wires_distinct|].
    apply Forall_app. split; [|ops_forall].
    clear -Hm. induction Hm as [|i op l ops' Hop _ IH]; constructor; [|exact IH].
    destruct (getitem_list _ i) as [x|] eqn:Hx; simpl in Hop; [|discriminate].
    injection Hop as <-. apply getitem_list_elem_of in Hx.
    unfold Wired.phase_adder, slice_to in *. simpl. wires_distinct.
Qed.

Lemma templates_distinct_wires_witness :
  distinct_wires
    (Wired.Qsquared_cir 20 5 4
       (phase_grad_wires (wires_cell 20 3 4 19))
       (electronic_wires (wires_cell 20 3 4 19))
       (coeff_wires (wires_cell 20 3 4 19))
       (total_mode_wires (wires_cell 20 3 4 19))
       (mode_wires (wires_cell 20 3 4 19))
       (scratch_wires (wires_cell 20 3 4 19))).
Proof.
  destruct (templates_distinct_wires 20 3 5 19 4 ltac:(lia)) as [H _].
  exact H.
Defined.

(** The additions controlled by the scratch wires: there are [2 * k] of
    them; when [2 * k <= b] each acts on a register of [n] bits with
    [b - 2 * k < n <= b] and is handed [2 * n + 1] wires ([n] coefficient
    wires, [n] phase-gradient wires, one control).  Nothing stops a smaller
    [b]: then the last addition is asked for a register of no bits or
    fewer. *)
Theorem scratch_adders_arity (b k : Z) (co pg : list string) :
  0 <= k ->
  Z.of_nat (length co) = b -> Z.of_nat (length pg) = b ->
  Z.of_nat (length (Wired.scratch_adders b k co pg)) = 2 * k /\
  (2 * k <= b ->
   Forall (fun op : Wired.WOp =>
             exists n : Z,
               fst op = ResourceControlled (ResourceSemiAdder n) 1 0 /\
               b - 2 * k < n <= b /\
               Z.of_nat (length (snd op)) = 2 * n + 1)
          (Wired.scratch_adders b k co pg)) /\
  (b < 2 * k ->
   exists (op : Wired.WOp) (n : Z),
     op ∈ Wired.scratch_adders b k co pg /\
     fst op = ResourceControlled (ResourceSemiAdder n) 1 0 /\ n <= 0).
Proof.
  intros Hk Hco Hpg. unfold Wired.scratch_adders. split; [|split].
  - rewrite length_map. apply range_length. lia.
  - intros Hb. apply Forall_forall. intros op Hop.
    apply list_elem_of_fmap in Hop as (i & -> & Hi).
    apply elem_of_range in Hi. exists (b - i).
    split; [reflexivity|]. split; [lia|].
    unfold Wired.phase_adder. simpl.
    rewrite !length_app, !Nat2Z.inj_add, !slice_to_length by lia.
    simpl. lia.
  - intros Hb.
    exists (Wired.phase_adder b co pg (2 * k - 1) [wire "s_" (2 * k - 1)]).
    exists (b - (2 * k - 1)).
    split; [|split; [reflexivity|lia]].
    apply list_elem_of_fmap. exists (2 * k - 1). split; [reflexivity|].
    apply elem_of_range. lia.
Qed.

Lemma scratch_adders_arity_witness :
  Z.of_nat (length (Wired.scratch_adders 20 4 (wires "c_" 20)
                      (wires "pg_" 20))) = 2 * 4 /\
  exists (op : Wired.WOp) (n : Z),
    op ∈ Wired.scratch_adders 6 4 (wires "c_" 6) (wires "pg_" 6) /\
    fst op = ResourceControlled (ResourceSemiAdder n) 1 0 /\ n <= 0.
Proof.
  split.
  - apply (scratch_adders_arity 20 4 (wires "c_" 20) (wires "pg_" 20));
      [lia|by rewrite wires_length..].
  - apply (scratch_adders_arity 6 4 (wires "c_" 6) (wires "pg_" 6));
      [lia|by rewrite wires_length..|lia].
Defined.

Lemma load_cell_ok_iff_witness :
  exists h : Hamiltonian, load_cell [] sample_couplings = Ok h.
Proof.
  apply (load_cell_ok_iff [] sample_couplings).
  exists (zeros [2; 2]%nat), (zeros [2; 2; 3]%nat), 2%nat, 2%nat, 3%nat, [].
  repeat split. lia.
Defined.

Lemma load_cell_with_betas_witness :
  exists h : Hamiltonian,
    load_cell [] (<[2 := zeros [2; 2; 3; 3]%nat]> sample_couplings) = Ok h /\
    QVC h = true /\ betas h = zeros [2; 2; 3; 3]%nat.
Proof.
  apply (load_cell_with_betas [] (<[2 := zeros [2; 2; 3; 3]%nat]> sample_couplings)
           (zeros [2; 2]%nat) (zeros [2; 2; 3]%nat) (zeros [2; 2; 3; 3]%nat)
           2 2 3 []); try reflexivity. lia.
Defined.
